(** * shared_mutex.cpp: a reader-writer guarded counter and an interval timer

    A shallow embedding of [src/shared_mutex.cpp].

    - [ThreadSafeCounter]: the three methods are written as the sequence of
      atomic actions their bodies perform (constructor of the lock guard,
      reads and writes of [value_], the line sent to [std::cout], destructor
      of the guard).  One definition of each body serves two semantics: a
      call run to completion by a single caller ([call]), and threads taking
      one atomic action at a time under an arbitrary schedule ([run]).
    - [Timer]: the methods are state transformers over a world made of the
      reading of the clock and a store of timer objects; [tics] and
      [get_duration] go through models of [std::chrono::duration_cast] and
      of the conversion to [double] (IEEE binary64, from [SpecFloat]). *)

From stdpp Require Import base option list numbers gmap.
From Stdlib Require Import ZArith Lia.
From Stdlib Require Import Floats.SpecFloat.

(** ** [unsigned int] *)

Module Unsigned.

(** Width of [unsigned int] on the ILP32, LP64 and LLP64 data models. *)
Definition bits : Z := 32.
Definition modulus : Z := 2 ^ bits.
Definition UINT_MAX : Z := modulus - 1.

(** Unsigned arithmetic is performed modulo [2 ^ bits]. *)
Definition wrap (z : Z) : Z := z mod modulus.

Definition in_range (z : Z) : Prop := (0 ≤ z < modulus)%Z.

End Unsigned.

(** ** [std::shared_mutex]

    The state of the mutex is whether it is held in exclusive mode and by
    how many holders it is held in shared mode.  An acquisition that would
    block returns [None]: the caller takes no step. *)

Module shared_mutex.

Record t := { exclusive : bool; shared : nat }.

Definition init : t := {| exclusive := false; shared := 0 |}.

Definition lock (m : t) : option t :=
  if negb (exclusive m) && (shared m =? 0)
  then Some {| exclusive := true; shared := 0 |}
  else None.

Definition unlock (m : t) : t :=
  {| exclusive := false; shared := shared m |}.

Definition lock_shared (m : t) : option t :=
  if exclusive m then None
  else Some {| exclusive := false; shared := S (shared m) |}.

Definition unlock_shared (m : t) : t :=
  {| exclusive := exclusive m; shared := pred (shared m) |}.

End shared_mutex.

(** ** [class ThreadSafeCounter] *)

Record ThreadSafeCounter := {
  mutex_ : shared_mutex.t;
  value_ : Z
}.

(** [ThreadSafeCounter() = default;] used as in [main], [ThreadSafeCounter
    counter;]: the object is default-initialized, [mutex_] by its own
    constructor and [value_], which has no initializer, not at all.  Its
    content is what the storage held, here the argument. *)
Definition ThreadSafeCounter_default_init (storage : Z) : ThreadSafeCounter :=
  {| mutex_ := shared_mutex.init; value_ := Unsigned.wrap storage |}.

(** A counter at rest (no call in progress) holding [v]. *)
Definition counter_at (v : Z) : ThreadSafeCounter :=
  {| mutex_ := shared_mutex.init; value_ := v |}.

(** The counter is at rest when nobody holds its mutex. *)
Definition at_rest (c : ThreadSafeCounter) : Prop :=
  mutex_ c = shared_mutex.init.

(** What the methods of the counter send to [std::cout]: one entry for
    each output statement executed, holding the value it read, in the
    order the statements were executed.  The statement of [increment()]
    runs under the exclusive lock: no other method of the counter inserts
    anything between its three insertions.  The statement of [get()] runs
    under a shared lock: in the stream itself the insertions of readers
    inside [get()] at the same time may interleave, and an entry
    [READER v] only says that a reader read [v] at that point.  What the
    threads of [main] insert themselves, outside the methods and under no
    lock, is not recorded. *)
Inductive line :=
| READER (v : Z)   (* "READER: Value: " << value_ *)
| WRITER (v : Z).  (* "WRITER: Value: " << value_ *)

(** The atomic actions of the method bodies. *)
Inductive stmt :=
| shared_lock_ctor    (* std::shared_lock lock(mutex_);  *)
| shared_lock_dtor    (* end of scope of the shared_lock *)
| unique_lock_ctor    (* std::unique_lock lock(mutex_);  *)
| unique_lock_dtor    (* end of scope of the unique_lock *)
| load_value          (* ++value_, first half: read value_ *)
| store_succ          (* ++value_, second half: write the successor *)
| store_zero          (* value_ = 0; *)
| cout_reader         (* std::cout << "READER: Value: " << value_ << std::endl; *)
| cout_writer         (* std::cout << "WRITER: Value: " << value_ << std::endl; *)
| return_value.       (* return value_; *)

Definition method := list stmt.

(** The locals of a call: the temporary of [++value_] and the returned
    value ([None] in a [void] method). *)
Record frame := { tmp : Z; retval : option Z }.

Definition new_frame : frame := {| tmp := 0; retval := None |}.

Definition exec (s : stmt) (c : ThreadSafeCounter) (f : frame)
  : option (ThreadSafeCounter * frame * list line) :=
  match s with
  | shared_lock_ctor =>
      m ← shared_mutex.lock_shared (mutex_ c);
      Some ({| mutex_ := m; value_ := value_ c |}, f, [])
  | shared_lock_dtor =>
      Some ({| mutex_ := shared_mutex.unlock_shared (mutex_ c);
               value_ := value_ c |}, f, [])
  | unique_lock_ctor =>
      m ← shared_mutex.lock (mutex_ c);
      Some ({| mutex_ := m; value_ := value_ c |}, f, [])
  | unique_lock_dtor =>
      Some ({| mutex_ := shared_mutex.unlock (mutex_ c);
               value_ := value_ c |}, f, [])
  | load_value =>
      Some (c, {| tmp := value_ c; retval := retval f |}, [])
  | store_succ =>
      Some ({| mutex_ := mutex_ c; value_ := Unsigned.wrap (tmp f + 1) |}, f, [])
  | store_zero =>
      Some ({| mutex_ := mutex_ c; value_ := 0 |}, f, [])
  | cout_reader => Some (c, f, [READER (value_ c)])
  | cout_writer => Some (c, f, [WRITER (value_ c)])
  | return_value =>
      Some (c, {| tmp := tmp f; retval := Some (value_ c) |}, [])
  end.

(** [unsigned int get() const] *)
Definition get : method :=
  [ shared_lock_ctor; cout_reader; return_value; shared_lock_dtor ].

(** [void increment()] *)
Definition increment : method :=
  [ unique_lock_ctor; load_value; store_succ; cout_writer; unique_lock_dtor ].

(** [void reset()] *)
Definition reset : method :=
  [ unique_lock_ctor; store_zero; unique_lock_dtor ].

(** *** A call run to completion by one caller *)

Fixpoint exec_all (body : method) (c : ThreadSafeCounter) (f : frame)
  : option (ThreadSafeCounter * frame * list line) :=
  match body with
  | [] => Some (c, f, [])
  | s :: body' =>
      '(c1, f1, out1) ← exec s c f;
      '(c2, f2, out2) ← exec_all body' c1 f1;
      Some (c2, f2, out1 ++ out2)
  end.

(** The result of a call: the returned value, the counter after the call
    and the lines printed; [None] when the caller would block. *)
Record returned := {
  result : option Z;
  after : ThreadSafeCounter;
  printed : list line
}.

Definition call (m : method) (c : ThreadSafeCounter) : option returned :=
  '(c', f, out) ← exec_all m c new_frame;
  Some {| result := retval f; after := c'; printed := out |}.

(** [K] calls of [m] in a row, each on the counter the previous one left. *)
Definition calls (K : N) (m : method) (c : ThreadSafeCounter)
  : option ThreadSafeCounter :=
  N.iter K (λ oc, c' ← oc; after <$> call m c') (Some c).

(** What [get()] returns after [K] calls of [m] in a row. *)
Definition get_after (K : N) (m : method) (c : ThreadSafeCounter)
  : option (option Z) :=
  c' ← calls K m c; result <$> call get c'.

(** *** Threads *)

Inductive op := OpGet | OpIncrement | OpReset.

#[global] Instance op_eq_dec : EqDecision op.
Proof. solve_decision. Defined.

Definition body (o : op) : method :=
  match o with
  | OpGet => get
  | OpIncrement => increment
  | OpReset => reset
  end.

(** A thread: the calls it still has to make (the head is the call in
    progress), how many actions of the call in progress are done, the
    locals of that call, and the values its [get()] calls returned. *)
Record thread := {
  todo : list op;
  pc : nat;
  locals : frame;
  results : list Z
}.

Definition spawn (program : list op) : thread :=
  {| todo := program; pc := 0; locals := new_frame; results := [] |}.

Record system := {
  counter : ThreadSafeCounter;
  cout : list line;
  pool : list thread
}.

Definition boot (c : ThreadSafeCounter) (programs : list (list op)) : system :=
  {| counter := c; cout := []; pool := spawn <$> programs |}.

(** The thread after one more action of its call [o], with locals [f]. *)
Definition advance (o : op) (t : thread) (f : frame) : thread :=
  if S (pc t) =? length (body o)
  then {| todo := tail (todo t); pc := 0; locals := new_frame;
          results := results t ++ option_list (retval f) |}
  else {| todo := todo t; pc := S (pc t); locals := f;
          results := results t |}.

(** Thread [i] takes its next action; [None] when there is no such thread,
    when it has finished, or when it is blocked on the mutex. *)
Definition step (i : nat) (st : system) : option system :=
  t ← pool st !! i;
  o ← head (todo t);
  s ← body o !! pc t;
  '(c', f', out) ← exec s (counter st) (locals t);
  Some {| counter := c'; cout := cout st ++ out;
          pool := <[i := advance o t f']> (pool st) |}.

(** A schedule names the thread that is given the processor at each
    instant; a thread that cannot move leaves the system as it is. *)
Definition sched_step (st : system) (i : nat) : system :=
  default st (step i st).

Definition run (schedule : list nat) (st : system) : system :=
  foldl sched_step st schedule.

Definition finished (st : system) : Prop :=
  Forall (λ t, todo t = []) (pool st).

#[global] Instance finished_dec st : Decision (finished st).
Proof. unfold finished. apply _. Defined.

(** A thread is inside the body of [increment()] or [reset()] from the
    moment its [unique_lock] is constructed until it is destroyed. *)
Definition writing (t : thread) : bool :=
  match todo t with
  | OpIncrement :: _ | OpReset :: _ => 0 <? pc t
  | _ => false
  end.

(** Likewise inside [get()], while its [shared_lock] lives. *)
Definition reading (t : thread) : bool :=
  match todo t with
  | OpGet :: _ => 0 <? pc t
  | _ => false
  end.

(** The threads of [main]: 32 readers of 10000 [get()] calls each and 3
    writers of 1000 [increment()] calls each.  A reader inserts each
    value [get()] returned into [std::cout] itself, after the call has
    released the lock; these values are the [results] of the thread, and
    their place in the stream among the lines of the other threads is not
    modelled. *)
Definition print_counter : list op := replicate (Z.to_nat 10000) OpGet.
Definition increment_counter : list op := replicate (Z.to_nat 1000) OpIncrement.
Definition main_programs : list (list op) :=
  replicate 32 print_counter ++ replicate 3 increment_counter.

(** *** Observations on the pool of threads *)

Fixpoint tally (f : thread → nat) (l : list thread) : nat :=
  match l with
  | [] => 0
  | t :: l' => f t + tally f l'
  end.

(** How many threads satisfy [p]: the instrumented critical-section
    counter. *)
Definition inside (p : thread → bool) (l : list thread) : nat :=
  tally (λ t, Nat.b2n (p t)) l.

Fixpoint increments_in (program : list op) : nat :=
  match program with
  | [] => 0
  | OpIncrement :: program' => S (increments_in program')
  | _ :: program' => increments_in program'
  end.

Definition no_reset (program : list op) : Prop := OpReset ∉ program.

#[global] Instance no_reset_dec program : Decision (no_reset program).
Proof. unfold no_reset. apply _. Defined.

(** The call in progress is [increment()] and its store is done. *)
Definition stored (t : thread) : nat :=
  match todo t with
  | OpIncrement :: _ => if 3 <=? pc t then 1 else 0
  | _ => 0
  end.

(** The stores of [++value_] the thread has still to do. *)
Definition pending (t : thread) : nat := increments_in (todo t) - stored t.

(** The call in progress is [increment()], between the two halves of
    [++value_]. *)
Definition about_to_store (t : thread) : Prop :=
  head (todo t) = Some OpIncrement ∧ pc t = 2.

Definition wf_thread (t : thread) : Prop :=
  match todo t with
  | [] => pc t = 0
  | o :: _ => pc t < length (body o)
  end.

(** What holds of every state a schedule can reach: the mutex tells how
    many threads are inside a writer body and how many inside [get()], and a
    writer between the halves of [++value_] holds the current value. *)
Record lock_inv (st : system) : Prop := {
  inv_wf : ∀ i t, pool st !! i = Some t → wf_thread t;
  inv_writers :
    inside writing (pool st)
    = Nat.b2n (shared_mutex.exclusive (mutex_ (counter st)));
  inv_readers :
    inside reading (pool st) = shared_mutex.shared (mutex_ (counter st));
  inv_rw :
    shared_mutex.exclusive (mutex_ (counter st)) = true →
    shared_mutex.shared (mutex_ (counter st)) = 0;
  inv_tmp :
    ∀ i t, pool st !! i = Some t → about_to_store t →
           tmp (locals t) = value_ (counter st)
}.

(** The call in progress is [get()], its [return value_;] done and its
    [shared_lock] still to destroy. *)
Definition returning (t : thread) : Prop :=
  head (todo t) = Some OpGet ∧ pc t = 3.

(** A reader about to return holds the current value. *)
Definition reader_inv (st : system) : Prop :=
  ∀ i t, pool st !! i = Some t → returning t →
         retval (locals t) = Some (value_ (counter st)).

(** What the threads still owe to the counter: with no [reset()] in any
    program, the value and the stores still to come add up, modulo the
    width of the counter, to the constant [K]. *)
Record count_inv (K : Z) (st : system) : Prop := {
  cnt_range : Unsigned.in_range (value_ (counter st));
  cnt_no_reset : ∀ i t, pool st !! i = Some t → no_reset (todo t);
  cnt_total :
    Unsigned.wrap (value_ (counter st) + Z.of_nat (tally pending (pool st)))
    = Unsigned.wrap K
}.

(** The [increment()] calls of a whole set of programs. *)
Definition total_increments (programs : list (list op)) : nat :=
  sum_list (increments_in <$> programs).

(** The number of atomic actions of a program, and the schedule that runs
    the threads one after the other, each to its end. *)
Definition actions (program : list op) : nat :=
  sum_list (length ∘ body <$> program).

Fixpoint one_by_one (i : nat) (programs : list (list op)) : list nat :=
  match programs with
  | [] => []
  | p :: ps => replicate (actions p) i ++ one_by_one (S i) ps
  end.

(** ** [std::chrono] *)

Module chrono.

Local Open Scope Z_scope.

(** [std::ratio<Num, Den>], in lowest terms; both fields are
    [intmax_t] and positive. *)
Record ratio := { num : Z; den : Z }.

Definition intmax_bits : Z := 63.

Definition ratio_ok (r : ratio) : Prop :=
  (0 < num r < 2 ^ intmax_bits) ∧ (0 < den r < 2 ^ intmax_bits).

Definition nano : ratio := {| num := 1; den := 1000000000 |}.
Definition micro : ratio := {| num := 1; den := 1000000 |}.
Definition milli : ratio := {| num := 1; den := 1000 |}.
Definition pico : ratio := {| num := 1; den := 1000000000000 |}.
Definition unit_ratio : ratio := {| num := 1; den := 1 |}.

(** [std::ratio_divide<R1, R2>] *)
Definition ratio_divide (r1 r2 : ratio) : ratio :=
  let n := num r1 * den r2 in
  let d := den r1 * num r2 in
  let g := Z.gcd n d in
  {| num := n / g; den := d / g |}.

(** The representation of a duration: a signed integer type of [bits]
    bits, in two's complement, or [double]. *)
Inductive rep := integral (bits : Z) | floating.

(** [std::chrono::duration<Rep, Period>] *)
Record duration_type := { rep_of : rep; period : ratio }.

(** The standard durations count in [int64_t]. *)
Definition milliseconds : duration_type :=
  {| rep_of := integral 64; period := milli |}.
Definition nanoseconds : duration_type :=
  {| rep_of := integral 64; period := nano |}.
(** [std::chrono::duration<std::int64_t, std::pico>], a unit finer than
    the period of the clock. *)
Definition picoseconds : duration_type :=
  {| rep_of := integral 64; period := pico |}.
(** [std::chrono::duration<std::int32_t, std::milli>], a unit narrower
    than the count of the clock. *)
Definition milliseconds32 : duration_type :=
  {| rep_of := integral 32; period := milli |}.

(** The values of a signed integer type of [bits] bits. *)
Definition fits (bits z : Z) : Prop :=
  - 2 ^ (bits - 1) ≤ z < 2 ^ (bits - 1).

(** The value of that type congruent to [z] modulo [2 ^ bits]. *)
Definition wrap_signed (bits z : Z) : Z :=
  (z + 2 ^ (bits - 1)) mod 2 ^ bits - 2 ^ (bits - 1).

(** [std::common_type<ToRep, FromRep, intmax_t>] for an integral [ToRep]
    of [bits] bits: the clock counts in [int64_t], which is [intmax_t],
    so the common type has 64 bits unless [ToRep] is wider. *)
Definition common_bits (bits : Z) : Z := Z.max bits 64.

(** [static_cast<ToRep>] of a value of the common type: to a narrower
    type the value is reduced modulo [2 ^ bits]; otherwise the common type
    is [ToRep] itself. *)
Definition narrow (bits z : Z) : Z :=
  if bits <? common_bits bits then wrap_signed bits z else z.
(** [std::chrono::duration<double>]: seconds in double precision. *)
Definition seconds_double : duration_type :=
  {| rep_of := floating; period := unit_ratio |}.

(** A [double] is an IEEE 754 binary64 number. *)
Definition double : Type := spec_float.
Definition prec : Z := 53.
Definition emax : Z := 1024.

(** Conversion of an integer to [double], to nearest, ties to even. *)
Definition to_double (n : Z) : double := binary_normalize prec emax n 0 false.
Definition double_mul : double → double → double := SFmul prec emax.
Definition double_div : double → double → double := SFdiv prec emax.

(** What [count()] of a duration gives. *)
Inductive count :=
| int_count (n : Z)
| double_count (x : double).

(** [static_cast<double>(d.count())] *)
Definition static_cast_double (c : count) : double :=
  match c with
  | int_count n => to_double n
  | double_count x => x
  end.

(** [std::chrono::duration_cast<To>(d)] for [d] of an integral duration
    type of period [from] with [d.count() = n].  With [CF] the quotient
    of the two periods, the standard gives four cases: [CF] is [1], its
    denominator is [1], its numerator is [1], or neither.  The arithmetic
    is done in the common type [CR] of the two representations and
    [intmax_t], and the result is converted to the representation of
    [To].  For an integral [To] the division truncates toward zero and
    the product by the numerator of [CF] is a product of [CR]: when it
    does not fit, the behaviour is undefined in C++, and the compiled
    code, on a two's complement machine, leaves the product modulo
    [2 ^ 64]; that is the product taken here. *)
Definition duration_cast (from : ratio) (To : duration_type) (n : Z) : count :=
  let cf := ratio_divide from (period To) in
  match rep_of To with
  | integral bits =>
      let cr := common_bits bits in
      int_count
        (narrow bits
           (if (num cf =? 1) && (den cf =? 1) then n
            else if den cf =? 1 then wrap_signed cr (n * num cf)
            else if num cf =? 1 then n ÷ den cf
            else wrap_signed cr (n * num cf) ÷ den cf))
  | floating =>
      let x := to_double n in
      double_count
        (if (num cf =? 1) && (den cf =? 1) then x
         else if den cf =? 1 then double_mul x (to_double (num cf))
         else if num cf =? 1 then double_div x (to_double (den cf))
         else double_div (double_mul x (to_double (num cf)))
                         (to_double (den cf)))
  end.

(** [To::zero()] *)
Definition zero (To : duration_type) : count :=
  match rep_of To with
  | integral _ => int_count 0
  | floating => double_count (S754_zero false)
  end.

(** The quotient of the periods of a clock and of a duration type is a
    well-formed [std::ratio]. *)
Definition castable (from : ratio) (To : duration_type) : Prop :=
  ratio_ok (ratio_divide from (period To)).

(** A clock, as far as the timer is concerned: the period of its
    [time_point]s, which count in [int64_t]. *)
Record clock := { clock_period : ratio }.

(** [std::chrono::steady_clock] counts nanoseconds. *)
Definition steady_clock : clock := {| clock_period := nano |}.



End chrono.

(** ** [class Timer<T, CLOCK_T>] *)

(** The two [time_point]s, as counts of periods of the clock. *)
Record Timer := { start_ : Z; end_ : Z }.

(** The timers live in a store, each at its address ([this]); the world
    also holds the reading of the clock and what was sent to the output
    stream. *)
Definition addr := nat.

Record world := {
  clock_reading : Z;
  timers : gmap addr Timer;
  ostream : list chrono.double
}.

(** A method either fails, when [this] is not a live timer, or returns a
    value and the world it leaves. *)
Definition M (A : Type) : Type := world → option (A * world).

#[global] Instance M_ret : MRet M := λ A a w, Some (a, w).
#[global] Instance M_bind : MBind M := λ A B f m w,
  match m w with
  | Some (a, w') => f a w'
  | None => None
  end.

(** [CLOCK_T::now()] *)
Definition now : M Z := λ w, Some (clock_reading w, w).

(** Time passes, by [d] periods of the clock: a monotonic clock never
    goes back. *)
Definition elapse (d : N) : M unit := λ w,
  Some ((), {| clock_reading := (clock_reading w + Z.of_N d)%Z;
               timers := timers w; ostream := ostream w |}).


Definition load (this : addr) : M Timer := λ w,
  t ← timers w !! this; Some (t, w).

Definition store (this : addr) (t : Timer) : M unit := λ w,
  Some ((), {| clock_reading := clock_reading w;
               timers := <[this := t]> (timers w); ostream := ostream w |}).

Definition set_start (this : addr) (v : Z) : M unit :=
  t ← load this; store this {| start_ := v; end_ := end_ t |}.

Definition set_end (this : addr) (v : Z) : M unit :=
  t ← load this; store this {| start_ := start_ t; end_ := v |}.

Definition put (x : chrono.double) : M unit := λ w,
  Some ((), {| clock_reading := clock_reading w; timers := timers w;
               ostream := ostream w ++ [x] |}).

(** [Timer() noexcept : start_{CLOCK_T::now()}, end_{start_} {}],
    constructing at [this]. *)
Definition Timer_ctor (this : addr) : M unit :=
  n ← now;
  store this {| start_ := n; end_ := n |}.

(** [Timer& tic() noexcept] *)
Definition tic (this : addr) : M addr :=
  n ← now;
  set_end this n;;
  t ← load this;
  set_start this (end_ t);;
  mret this.

(** [Timer& toc() & noexcept] *)
Definition toc (this : addr) : M addr :=
  n ← now;
  set_end this n;;
  mret this.

(** [template <typename U = T> U get_duration() const noexcept] *)
Definition get_duration (CLOCK_T : chrono.clock) (U : chrono.duration_type)
    (this : addr) : M chrono.count :=
  t ← load this;
  mret (chrono.duration_cast (chrono.clock_period CLOCK_T) U (end_ t - start_ t)).

(** [double tics() const noexcept] *)
Definition tics (CLOCK_T : chrono.clock) (T : chrono.duration_type)
    (this : addr) : M chrono.double :=
  t ← load this;
  mret (chrono.static_cast_double
          (chrono.duration_cast (chrono.clock_period CLOCK_T) T
             (end_ t - start_ t))).

(** [friend std::ostream& operator<<(std::ostream& os, const Timer& rhs)] *)
Definition insertion (CLOCK_T : chrono.clock) (T : chrono.duration_type)
    (rhs : addr) : M unit :=
  x ← tics CLOCK_T T rhs;
  put x.

(** A world with no timer yet. *)
Definition empty_world (reading : Z) : world :=
  {| clock_reading := reading; timers := ∅; ostream := [] |}.

(** The value a method returns and the world it leaves. *)
Definition returns {A} (m : M A) (w : world) (a : A) (w' : world) : Prop :=
  m w = Some (a, w').

(** The same read-only method called [n] times in a row. *)
Fixpoint repeatedly {A} (n : nat) (m : M A) : M (list A) :=
  match n with
  | 0 => mret []
  | S n' => x ← m; xs ← repeatedly n' m; mret (x :: xs)
  end.

(** What a monotonic clock guarantees of every timer: it was started no
    later than it was stopped, and stopped no later than now. *)
Definition monotone (w : world) : Prop :=
  ∀ this t, timers w !! this = Some t →
            (start_ t ≤ end_ t ∧ end_ t ≤ clock_reading w)%Z.

(** ** More about the counter under a schedule *)

(** The values shown by the lines of the writers, in the order they
    reached [std::cout]. *)
Fixpoint writer_lines (out : list line) : list Z :=
  match out with
  | [] => []
  | WRITER v :: out' => v :: writer_lines out'
  | READER _ :: out' => writer_lines out'
  end.

(** The call in progress is [increment()], its store done and its line
    not yet printed. *)
Definition unprinted (t : thread) : nat :=
  match todo t with
  | OpIncrement :: _ => if pc t =? 3 then 1 else 0
  | _ => 0
  end.

(** The lines of [increment()] the thread has still to print. *)
Definition owed (t : thread) : nat :=
  increments_in (todo t)
  - match todo t with
    | OpIncrement :: _ => if 4 <=? pc t then 1 else 0
    | _ => 0
    end.

(** A list of values that never go down. *)
Definition ascending (l : list Z) : Prop :=
  ∀ a b x y, a ≤ b → l !! a = Some x → l !! b = Some y → (x ≤ y)%Z.

(** The thread is about to call [o]: its lock guard is not constructed
    yet. *)
Definition about_to_call (o : op) (t : thread) : Prop :=
  head (todo t) = Some o ∧ pc t = 0.

(** What the log of the writers looks like when nobody resets: counted
    from the value [v0] the counter started with, how many lines are still
    owed, what each line shows, and where the counter stands. *)
Record log_inv (v0 : Z) (K : nat) (st : system) : Prop := {
  log_owed : length (writer_lines (cout st)) + tally owed (pool st) = K;
  log_lines :
    ∀ k v, writer_lines (cout st) !! k = Some v →
           v = Unsigned.wrap (v0 + Z.of_nat k + 1);
  log_value :
    Unsigned.wrap (v0 + Z.of_nat (length (writer_lines (cout st)))
                   + Z.of_nat (tally unprinted (pool st)))
    = value_ (counter st)
}.

(** What holds as long as the counter does not wrap and nobody resets:
    the value and the stores to come add up to [K] exactly; only a
    [get()] about to return has a value to return; and nothing a thread
    was handed exceeds the value, each thread being handed values that
    never go down. *)
Record growth_inv (K : Z) (st : system) : Prop := {
  grow_nonneg : (0 ≤ value_ (counter st))%Z;
  grow_total :
    (value_ (counter st) + Z.of_nat (tally pending (pool st)) = K)%Z;
  grow_retval :
    ∀ i t, pool st !! i = Some t → retval (locals t) ≠ None → returning t;
  grow_results :
    ∀ i t, pool st !! i = Some t →
           ascending (results t)
           ∧ Forall (λ x, x ≤ value_ (counter st))%Z (results t)
}.

(** ** The timer as [main] uses it *)

(** [std::this_thread::sleep_for(std::chrono::milliseconds(ms))] seen from
    the steady clock: the thread is blocked for the duration asked, [ms]
    milliseconds of 1000000 periods each, and for however longer, [late]
    periods, the scheduler keeps it. *)
Definition sleep_for (ms : Z) (late : N) : M unit :=
  elapse (Z.to_N (ms * 1000000) + late).

(** [std::cout << "Time " << t << " ms" << std::endl;] for the
    [Timer<std::chrono::milliseconds>] of [main]. *)
Definition print_time (t : addr) : M unit :=
  insertion chrono.steady_clock chrono.milliseconds t.

(** The loop of [main], [n] iterations from iteration [i] on; iteration
    [j] is kept [late j] periods longer than the 10 ms it asks for. *)
Fixpoint timed_loop (t : addr) (late : nat → N) (i n : nat) : M unit :=
  match n with
  | 0 => mret ()
  | S n' =>
      tic t;;
      sleep_for 10 (late i);;
      toc t;;
      print_time t;;
      timed_loop t late (S i) n'
  end.

(** The second half of [main]: a timer constructed at [t], a sleep of
    1232 ms, [toc()], the time printed, then the loop of 100 iterations. *)
Definition main_timer (t : addr) (late0 : N) (late : nat → N) : M unit :=
  Timer_ctor t;;
  sleep_for 1232 late0;;
  toc t;;
  print_time t;;
  timed_loop t late 0 100.

(** Any use of timers: constructing one, calling its methods, printing
    it, letting time pass. *)
Inductive use :=
| use_ctor (this : addr)
| use_tic (this : addr)
| use_toc (this : addr)
| use_print (this : addr)
| use_wait (d : N).

Definition perform (C : chrono.clock) (T : chrono.duration_type) (u : use)
  : M unit :=
  match u with
  | use_ctor this => Timer_ctor this
  | use_tic this => tic this;; mret ()
  | use_toc this => toc this;; mret ()
  | use_print this => insertion C T this
  | use_wait d => elapse d
  end.

Fixpoint perform_all (C : chrono.clock) (T : chrono.duration_type)
    (us : list use) : M unit :=
  match us with
  | [] => mret ()
  | u :: us' => perform C T u;; perform_all C T us'
  end.

(** * Properties *)

(** Bounds between numerals, by evaluation. *)
Ltac evaluated :=
  vm_compute; repeat split; first [reflexivity | discriminate].

(** ** Unsigned arithmetic *)

Lemma modulus_eq : Unsigned.modulus = 4294967296%Z.
Proof. reflexivity. Qed.

Lemma wrap_in_range z : Unsigned.in_range (Unsigned.wrap z).
Proof.
  unfold Unsigned.in_range, Unsigned.wrap. rewrite modulus_eq.
  apply Z.mod_pos_bound. lia.
Qed.

Lemma wrap_small z : Unsigned.in_range z → Unsigned.wrap z = z.
Proof.
  unfold Unsigned.in_range, Unsigned.wrap. intros Hz.
  apply Z.mod_small. exact Hz.
Qed.

Lemma wrap_wrap_succ z : Unsigned.wrap (Unsigned.wrap z + 1) = Unsigned.wrap (z + 1).
Proof.
  unfold Unsigned.wrap. rewrite modulus_eq.
  rewrite Z.add_mod_idemp_l by lia. reflexivity.
Qed.

(** ** Calls run to completion *)

Lemma call_get c :
  shared_mutex.exclusive (mutex_ c) = false →
  call get c =
    Some {| result := Some (value_ c); after := c;
            printed := [READER (value_ c)] |}.
Proof.
  destruct c as [[e n] v]. simpl. intros ->. reflexivity.
Qed.

Lemma call_get_blocked c :
  shared_mutex.exclusive (mutex_ c) = true → call get c = None.
Proof.
  destruct c as [[e n] v]. simpl. intros ->. reflexivity.
Qed.

Lemma call_increment c :
  at_rest c →
  call increment c =
    Some {| result := None;
            after := {| mutex_ := mutex_ c;
                        value_ := Unsigned.wrap (value_ c + 1) |};
            printed := [WRITER (Unsigned.wrap (value_ c + 1))] |}.
Proof.
  destruct c as [m v]. unfold at_rest. simpl. intros ->. reflexivity.
Qed.

Lemma call_reset c :
  at_rest c →
  call reset c =
    Some {| result := None;
            after := {| mutex_ := mutex_ c; value_ := 0 |};
            printed := [] |}.
Proof.
  destruct c as [m v]. unfold at_rest. simpl. intros ->. reflexivity.
Qed.

(** A writer blocks as long as the mutex is held in either mode. *)
Lemma call_writer_blocked m c :
  m = increment ∨ m = reset →
  mutex_ c ≠ shared_mutex.init → call m c = None.
Proof.
  destruct c as [[e n] v]. simpl. intros Hm Hne.
  assert (shared_mutex.lock {| shared_mutex.exclusive := e;
                               shared_mutex.shared := n |} = None) as Hl.
  { unfold shared_mutex.lock. simpl. destruct e; simpl; [reflexivity|].
    destruct n; simpl; [|reflexivity]. exfalso. apply Hne. reflexivity. }
  destruct Hm as [-> | ->]; unfold call; simpl; rewrite Hl; reflexivity.
Qed.

Lemma calls_succ K m c :
  calls (N.succ K) m c = (c' ← calls K m c; after <$> call m c').
Proof. unfold calls. rewrite N.iter_succ. reflexivity. Qed.

Lemma calls_increment K c :
  at_rest c →
  Unsigned.in_range (value_ c) →
  calls K increment c =
    Some {| mutex_ := shared_mutex.init;
            value_ := Unsigned.wrap (value_ c + Z.of_N K) |}.
Proof.
  intros Hrest Hrange. induction K as [|K IH] using N.peano_ind.
  - unfold calls. simpl. rewrite Z.add_0_r, wrap_small by exact Hrange.
    destruct c as [m v]. unfold at_rest in Hrest. simpl in *. by subst.
  - rewrite calls_succ, IH. unfold mbind, option_bind.
    rewrite call_increment by reflexivity. simpl.
    rewrite wrap_wrap_succ. do 3 f_equal. lia.
Qed.

(** ** Threads under a schedule *)

Lemma tally_insert f l i t t' :
  l !! i = Some t → tally f (<[i:=t']> l) + f t = tally f l + f t'.
Proof.
  revert i. induction l as [|x l IH]; intros [|i] Hi;
    simpl in *; try discriminate.
  - injection Hi as ->. lia.
  - specialize (IH i Hi). lia.
Qed.

Lemma tally_one f l i t : l !! i = Some t → f t ≤ tally f l.
Proof.
  revert i. induction l as [|x l IH]; intros [|i] Hi;
    simpl in *; try discriminate.
  - injection Hi as ->. lia.
  - specialize (IH i Hi). lia.
Qed.

Lemma tally_two f l i j ti tj :
  i ≠ j → l !! i = Some ti → l !! j = Some tj → f ti + f tj ≤ tally f l.
Proof.
  revert i j. induction l as [|x l IH]; intros [|i] [|j] Hne Hi Hj;
    simpl in *; try discriminate; try congruence.
  - injection Hi as ->. pose proof (tally_one f l j tj Hj). lia.
  - injection Hj as ->. pose proof (tally_one f l i ti Hi). lia.
  - assert (i ≠ j) as Hne' by congruence.
    specialize (IH i j Hne' Hi Hj). lia.
Qed.

Lemma tally_spawn_zero f programs :
  (∀ p, f (spawn p) = 0) → tally f (spawn <$> programs) = 0.
Proof.
  intros Hf. induction programs as [|p ps IH]; simpl.
  - reflexivity.
  - rewrite Hf. exact IH.
Qed.

Lemma writing_idle t : pc t = 0 → writing t = false.
Proof.
  unfold writing. intros ->. destruct (todo t) as [|[] ?]; reflexivity.
Qed.

Lemma reading_idle t : pc t = 0 → reading t = false.
Proof.
  unfold reading. intros ->. destruct (todo t) as [|[] ?]; reflexivity.
Qed.

Lemma stored_idle t : pc t = 0 → stored t = 0.
Proof.
  unfold stored. intros ->. destruct (todo t) as [|[] ?]; reflexivity.
Qed.

Lemma wf_idle t : pc t = 0 → wf_thread t.
Proof.
  unfold wf_thread. intros ->.
  destruct (todo t) as [|[] ?]; simpl; lia.
Qed.

(** The states a step starts from and leads to, one case for each action
    of each method. *)
Lemma step_inv i st st' :
  step i st = Some st' →
  ∃ t o s c' f' out,
    pool st !! i = Some t ∧ head (todo t) = Some o ∧
    body o !! pc t = Some s ∧
    exec s (counter st) (locals t) = Some (c', f', out) ∧
    st' = {| counter := c'; cout := cout st ++ out;
             pool := <[i := advance o t f']> (pool st) |}.
Proof.
  unfold step. intros H.
  destruct (pool st !! i) as [t|] eqn:Ht; simpl in H; [|discriminate].
  destruct (head (todo t)) as [o|] eqn:Ho; simpl in H; [|discriminate].
  destruct (body o !! pc t) as [s|] eqn:Hs; simpl in H; [|discriminate].
  destruct (exec s (counter st) (locals t)) as [[[c' f'] out]|] eqn:He;
    simpl in H; [|discriminate].
  injection H as <-. exists t, o, s, c', f', out. done.
Qed.

Lemma about_to_store_writing t : about_to_store t → writing t = true.
Proof.
  unfold about_to_store, writing. intros [Hh Hpc].
  destruct (todo t) as [|o ?]; simpl in Hh; [discriminate|].
  injection Hh as ->. rewrite Hpc. reflexivity.
Qed.

Ltac step_cases H :=
  let t := fresh "t" in let o := fresh "o" in let s := fresh "s" in
  let Hi := fresh "Hi" in let Ho := fresh "Ho" in
  let Hs := fresh "Hs" in let He := fresh "He" in
  let p := fresh "p" in
  apply step_inv in H as (t & o & s & ? & ? & ? & Hi & Ho & Hs & He & ->);
  destruct t as [[|? ?] p ? ?]; simpl in Ho; [discriminate|];
  injection Ho as ->;
  destruct o; simpl in Hs;
  repeat (destruct p as [|p]; simpl in Hs; try discriminate);
  injection Hs as <-; simpl in He.

Lemma step_lock_inv i st st' :
  step i st = Some st' → lock_inv st → lock_inv st'.
Proof.
  intros Hstep [Hwf Hw Hr Hrw Htmp].
  destruct st as [[[e n] v] out pl]. simpl in *.
  step_cases Hstep.
  all: unfold shared_mutex.lock, shared_mutex.lock_shared in He; simpl in He.
  all: try (destruct e; simpl in He; try discriminate).
  all: try (destruct n; simpl in He; try discriminate).
  all: injection He as <- <- <-.
  all: unfold advance; simpl.
  all: try discriminate (Hrw eq_refl).
  all: pose proof (tally_one (λ x, Nat.b2n (writing x)) _ _ _ Hi) as Hw1;
       pose proof (tally_one (λ x, Nat.b2n (reading x)) _ _ _ Hi) as Hr1;
       unfold inside in *; simpl in Hw1, Hr1, Hw, Hr.
  all: try lia.
  all: match goal with
       | |- lock_inv {| counter := _; cout := _; pool := <[_ := ?t']> _ |} =>
           pose proof (tally_insert (λ x, Nat.b2n (writing x)) _ _ _ t' Hi) as Hw2;
           pose proof (tally_insert (λ x, Nat.b2n (reading x)) _ _ _ t' Hi) as Hr2;
           cbv beta in Hw2, Hr2;
           try (rewrite (writing_idle t') in Hw2 by reflexivity);
           try (rewrite (reading_idle t') in Hr2 by reflexivity);
           simpl in Hw2, Hr2
       end.
  all: split; simpl.
  all: try (unfold inside; simpl; lia).
  all: try (intros H; try discriminate; simpl; lia).
  all: intros j tj Hj; try intros Hats;
       apply list_lookup_insert_Some in Hj as [(-> & <- & _)|(Hne & Hj)].
  all: try (first [ apply wf_idle; reflexivity
                  | unfold wf_thread; simpl; lia
                  | eapply Hwf; eassumption ]).
  all: try (destruct Hats as [Hh Hpc]; simpl in *; congruence).
  all: try exact (Htmp j tj Hj Hats).
  all: exfalso; pose proof (about_to_store_writing _ Hats) as Hwj;
       pose proof (tally_two (λ x, Nat.b2n (writing x)) _ _ _ _ _ Hne Hi Hj) as H2;
       simpl in H2; rewrite Hwj in H2; simpl in H2; lia.
Qed.

Lemma lock_inv_boot c programs : at_rest c → lock_inv (boot c programs).
Proof.
  unfold at_rest. intros Hc. split; simpl; rewrite ?Hc; simpl.
  - intros i t Hi. apply list_lookup_fmap_Some in Hi as (p & -> & _).
    apply wf_idle. reflexivity.
  - apply tally_spawn_zero. intros p. rewrite writing_idle; reflexivity.
  - apply tally_spawn_zero. intros p. rewrite reading_idle; reflexivity.
  - reflexivity.
  - intros i t Hi. apply list_lookup_fmap_Some in Hi as (p & -> & _).
    intros [_ Hpc]. discriminate Hpc.
Qed.

Lemma sched_step_lock_inv st i : lock_inv st → lock_inv (sched_step st i).
Proof.
  intros Hinv. unfold sched_step.
  destruct (step i st) as [st'|] eqn:Hstep; simpl.
  - eapply step_lock_inv; eassumption.
  - exact Hinv.
Qed.

Lemma run_lock_inv schedule st : lock_inv st → lock_inv (run schedule st).
Proof.
  revert st. induction schedule as [|i schedule IH]; intros st Hinv; simpl.
  - exact Hinv.
  - apply IH. apply sched_step_lock_inv. exact Hinv.
Qed.

Lemma b2n_le_1 b : Nat.b2n b ≤ 1.
Proof. destruct b; simpl; lia. Qed.

Lemma lock_inv_exclusion st i j ti tj :
  lock_inv st →
  pool st !! i = Some ti → pool st !! j = Some tj →
  writing ti = true → writing tj = true → i = j.
Proof.
  intros Hinv Hi Hj Hwi Hwj.
  destruct (decide (i = j)) as [|Hne]; [assumption|exfalso].
  pose proof (tally_two (λ x, Nat.b2n (writing x)) _ _ _ _ _ Hne Hi Hj) as H2.
  simpl in H2. rewrite Hwi, Hwj in H2.
  pose proof (inv_writers _ Hinv) as Hw. unfold inside in Hw.
  pose proof (b2n_le_1 (shared_mutex.exclusive (mutex_ (counter st)))).
  simpl in H2. lia.
Qed.

Lemma no_reset_tail o l : no_reset (o :: l) → no_reset l.
Proof. unfold no_reset. intros H Hl. apply H. by right. Qed.

Lemma step_count_inv K i st st' :
  step i st = Some st' → lock_inv st → count_inv K st → count_inv K st'.
Proof.
  intros Hstep [Hwf Hw Hr Hrw Htmp] [Hrange Hnr Htot].
  destruct st as [[m v] out pl]. simpl in *.
  step_cases Hstep.
  all: try (exfalso; apply (Hnr _ _ Hi); simpl; by left).
  all: try (destruct (shared_mutex.lock_shared m) as [m'|];
            simpl in He; [|discriminate]).
  all: try (destruct (shared_mutex.lock m) as [m'|];
            simpl in He; [|discriminate]).
  all: injection He as <- <- <-.
  all: unfold advance; simpl.
  all: pose proof (Hnr _ _ Hi) as Hnri; simpl in Hnri.
  all: match goal with
       | |- count_inv _ {| counter := _; cout := _; pool := <[_ := ?t']> _ |} =>
           pose proof (tally_insert pending _ _ _ t' Hi) as Hp;
           unfold pending in Hp at 2 4;
           try (rewrite (stored_idle t') in Hp by reflexivity);
           unfold stored in Hp; simpl in Hp
       end.
  all: split; simpl.
  all: try assumption.
  all: try apply wrap_in_range.
  all: try (intros j tj Hj;
            apply list_lookup_insert_Some in Hj as [(-> & <- & _)|(Hne & Hj)];
            [ simpl; first [ assumption | eapply no_reset_tail; eassumption ]
            | eapply Hnr; eassumption ]).
  all: try (rewrite <- Htot; f_equal; lia).
  pose proof (Htmp _ _ Hi (conj eq_refl eq_refl)) as Ht. simpl in Ht.
  rewrite Ht, <- Htot. unfold Unsigned.wrap. rewrite modulus_eq.
  rewrite Z.add_mod_idemp_l by lia. f_equal. lia.
Qed.

Lemma tally_pending_spawn programs :
  tally pending (spawn <$> programs) = total_increments programs.
Proof.
  unfold total_increments. induction programs as [|p ps IH].
  - reflexivity.
  - rewrite !fmap_cons. cbn [tally]. rewrite IH.
    unfold pending. rewrite stored_idle by reflexivity. simpl. lia.
Qed.

Lemma count_inv_boot c programs :
  Unsigned.in_range (value_ c) →
  Forall no_reset programs →
  count_inv (value_ c + Z.of_nat (total_increments programs)) (boot c programs).
Proof.
  intros Hrange Hnr. split; simpl.
  - exact Hrange.
  - intros i t Hi. apply list_lookup_fmap_Some in Hi as (p & -> & Hp).
    simpl. eapply Forall_lookup_1; eassumption.
  - rewrite tally_pending_spawn. reflexivity.
Qed.

Lemma run_count_inv K schedule st :
  lock_inv st → count_inv K st → count_inv K (run schedule st).
Proof.
  revert st. induction schedule as [|i schedule IH]; intros st Hl Hc; simpl.
  - exact Hc.
  - apply IH.
    + apply sched_step_lock_inv. exact Hl.
    + unfold sched_step. destruct (step i st) as [st'|] eqn:Hstep; simpl.
      * eapply step_count_inv; eassumption.
      * exact Hc.
Qed.

Lemma tally_finished f st :
  (∀ t, todo t = [] → f t = 0) → finished st → tally f (pool st) = 0.
Proof.
  unfold finished. intros Hf Hfin.
  induction Hfin as [|t l Ht _ IH]; simpl.
  - reflexivity.
  - rewrite (Hf t Ht), IH. reflexivity.
Qed.

(** When every thread has returned from its last call the mutex is free. *)
Lemma finished_at_rest st : lock_inv st → finished st → at_rest (counter st).
Proof.
  intros Hinv Hfin. unfold at_rest.
  pose proof (inv_writers _ Hinv) as Hw.
  pose proof (inv_readers _ Hinv) as Hr.
  unfold inside in *.
  rewrite (tally_finished _ st) in Hw; try assumption.
  2: { intros t Ht. unfold writing. by rewrite Ht. }
  rewrite (tally_finished _ st) in Hr; try assumption.
  2: { intros t Ht. unfold reading. by rewrite Ht. }
  destruct (mutex_ (counter st)) as [[] n]; simpl in *;
    try discriminate. by subst.
Qed.

(** *** Progress *)

Lemma run_app s1 s2 st : run (s1 ++ s2) st = run s2 (run s1 st).
Proof. unfold run. apply foldl_app. Qed.

Lemma run_cons i s st : run (i :: s) st = run s (sched_step st i).
Proof. reflexivity. Qed.

Lemma sched_step_at i c out pl t o s c' f' out' :
  pl !! i = Some t → head (todo t) = Some o → body o !! pc t = Some s →
  exec s c (locals t) = Some (c', f', out') →
  sched_step {| counter := c; cout := out; pool := pl |} i
  = {| counter := c'; cout := out ++ out'; pool := <[i := advance o t f']> pl |}.
Proof.
  intros Hi Ho Hs He. unfold sched_step, step. simpl.
  rewrite Hi. simpl. rewrite Ho. simpl. rewrite Hs. simpl. rewrite He.
  reflexivity.
Qed.

Ltac solo_step Hi Hlen :=
  rewrite run_cons;
  erewrite sched_step_at;
  [ | first [ exact Hi
            | apply list_lookup_insert_eq; rewrite ?length_insert; exact Hlen ]
    | reflexivity | reflexivity | reflexivity ];
  unfold advance; cbn -[run insert]; rewrite ?list_insert_insert_eq.

Lemma solo_call i o rest rs c out pl :
  at_rest c →
  pl !! i = Some {| todo := o :: rest; pc := 0; locals := new_frame;
                    results := rs |} →
  ∃ r, call (body o) c = Some r
       ∧ at_rest (after r)
       ∧ run (replicate (length (body o)) i)
             {| counter := c; cout := out; pool := pl |}
         = {| counter := after r; cout := out ++ printed r;
              pool := <[i := {| todo := rest; pc := 0; locals := new_frame;
                                results := rs ++ option_list (result r) |}]> pl |}.
Proof.
  intros Hrest Hi. pose proof (lookup_lt_Some _ _ _ Hi) as Hlen.
  destruct c as [m v]. unfold at_rest in Hrest. simpl in Hrest. subst m.
  destruct o; (eexists; split; [reflexivity|]); (split; [reflexivity|]).
  all: simpl replicate; simpl after; simpl printed; simpl result.
  all: repeat solo_step Hi Hlen.
  all: rewrite <- ?app_assoc, ?app_nil_r; reflexivity.
Qed.

Lemma solo_program p : ∀ i rs c out pl,
  at_rest c →
  pl !! i = Some {| todo := p; pc := 0; locals := new_frame; results := rs |} →
  ∃ c' out' rs',
    at_rest c'
    ∧ run (replicate (actions p) i) {| counter := c; cout := out; pool := pl |}
      = {| counter := c'; cout := out';
           pool := <[i := {| todo := []; pc := 0; locals := new_frame;
                             results := rs' |}]> pl |}.
Proof.
  induction p as [|o p IH]; intros i rs c out pl Hrest Hi.
  - exists c, out, rs. split; [assumption|]. simpl.
    rewrite list_insert_id by assumption. reflexivity.
  - pose proof (lookup_lt_Some _ _ _ Hi) as Hlen.
    destruct (solo_call i o p rs c out pl Hrest Hi) as (r & _ & Hrest' & Hrun).
    unfold actions. rewrite fmap_cons. simpl sum_list.
    rewrite replicate_add, run_app. unfold compose at 1. rewrite Hrun.
    edestruct (IH i) as (c' & out' & rs' & Hrest'' & Hrun');
      [exact Hrest' | apply list_lookup_insert_eq; exact Hlen |].
    fold (actions p). rewrite Hrun', list_insert_insert_eq. eauto.
Qed.

Lemma one_by_one_finishes programs : ∀ done c out,
  at_rest c →
  Forall (λ t, todo t = []) done →
  finished (run (one_by_one (length done) programs)
              {| counter := c; cout := out;
                 pool := done ++ (spawn <$> programs) |}).
Proof.
  induction programs as [|p ps IH]; intros done c out Hrest Hdone.
  - simpl. unfold finished. simpl. rewrite app_nil_r. exact Hdone.
  - simpl one_by_one. rewrite run_app, fmap_cons.
    edestruct (solo_program p (length done)) as (c' & out' & rs' & Hrest' & ->);
      [exact Hrest | apply list_lookup_middle; reflexivity |].
    rewrite insert_app_r_alt, Nat.sub_diag by lia. simpl.
    rewrite (cons_middle _ done), app_assoc.
    replace (S (length done)) with (length (done ++ [{| todo := []; pc := 0;
      locals := new_frame; results := rs' |}]))
      by (rewrite length_app; simpl; lia).
    apply IH; [exact Hrest'|].
    apply Forall_app. split; [exact Hdone|]. by constructor.
Qed.

(** X7.  Every workload can run to its end: scheduled one after the other,
    the threads all return from their last call. *)
Lemma every_workload_finishes c programs :
  at_rest c → finished (run (one_by_one 0 programs) (boot c programs)).
Proof.
  intros Hrest. apply (one_by_one_finishes programs [] c []); [assumption|].
  constructor.
Qed.

Lemma tally_pos f l : 0 < tally f l → ∃ i t, l !! i = Some t ∧ 0 < f t.
Proof.
  induction l as [|x l IH]; simpl; [lia|]. intros Hpos.
  destruct (decide (0 < f x)) as [Hx|Hx].
  - exists 0, x. done.
  - destruct IH as (i & t & Hi & Ht); [lia|]. exists (S i), t. done.
Qed.

(** A thread whose lock guard is constructed can take its next action. *)
Lemma inside_thread_steps st i t :
  lock_inv st → pool st !! i = Some t →
  0 < pc t → is_Some (step i st).
Proof.
  intros Hinv Hi Hpc. pose proof (inv_wf _ Hinv _ _ Hi) as Hwf.
  unfold step. rewrite Hi. simpl.
  destruct t as [[|o rest] p f rs]; unfold wf_thread in Hwf; simpl in *; [lia|].
  destruct o; simpl in Hwf;
    repeat (destruct p as [|p]; simpl in *; try lia); eauto.
Qed.

(** A thread about to make a call on a free mutex can take its first
    action. *)
Lemma idle_thread_steps st i t :
  at_rest (counter st) → pool st !! i = Some t →
  todo t ≠ [] → pc t = 0 → is_Some (step i st).
Proof.
  unfold at_rest. intros Hrest Hi Htodo Hpc.
  unfold step. rewrite Hi. simpl.
  destruct t as [[|o rest] p f rs]; simpl in *; [done|]. subst p.
  destruct o; simpl; rewrite Hrest; simpl; eauto.
Qed.

(** No deadlock: in every state a schedule can reach, as long as some
    thread has calls to make, some thread can take an action. *)
Lemma deadlock_free st :
  lock_inv st → ¬ finished st → ∃ i, is_Some (step i st).
Proof.
  intros Hinv Hnot.
  pose proof (inv_writers _ Hinv) as Hw. pose proof (inv_readers _ Hinv) as Hr.
  unfold inside in *.
  destruct (mutex_ (counter st)) as [e n] eqn:Hm. simpl in *.
  destruct e; [|destruct n as [|n]].
  - destruct (tally_pos (λ t, Nat.b2n (writing t)) (pool st))
      as (i & t & Hi & Ht); [rewrite Hw; simpl; lia|].
    exists i. eapply inside_thread_steps; [eassumption..|].
    unfold writing in Ht. destruct (todo t) as [|[] ?]; simpl in Ht; try lia.
    all: destruct (pc t); simpl in *; lia.
  - apply not_Forall_Exists in Hnot; [|apply _].
    apply Exists_exists in Hnot as (t & [i Hi]%list_elem_of_lookup & Ht).
    exists i. destruct (decide (pc t = 0)) as [Hpc|Hpc].
    + eapply idle_thread_steps; eassumption.
    + eapply inside_thread_steps; [eassumption..|lia].
  - destruct (tally_pos (λ t, Nat.b2n (reading t)) (pool st))
      as (i & t & Hi & Ht); [rewrite Hr; lia|].
    exists i. eapply inside_thread_steps; [eassumption..|].
    unfold reading in Ht. destruct (todo t) as [|[] ?]; simpl in Ht; try lia.
    destruct (pc t); simpl in *; lia.
Qed.

(** Under the lock the two halves of [++value_] act as one: the store
    leaves the successor, modulo the width, of the value it finds. *)
Lemma store_adds_one i st st' t :
  lock_inv st → step i st = Some st' →
  pool st !! i = Some t → about_to_store t →
  value_ (counter st') = Unsigned.wrap (value_ (counter st) + 1).
Proof.
  intros Hinv Hstep Hi [Hh Hpc].
  pose proof (inv_tmp _ Hinv _ _ Hi (conj Hh Hpc)) as Htmp.
  apply step_inv in Hstep as (t' & o & s & c' & f' & out & Hi' & Ho & Hs & He & ->).
  rewrite Hi in Hi'. injection Hi' as <-.
  rewrite Hh in Ho. injection Ho as <-. rewrite Hpc in Hs.
  injection Hs as <-. simpl in He. injection He as <- _ _. simpl.
  rewrite Htmp. reflexivity.
Qed.

(** *** Readers *)

Lemma returning_reading t : returning t → reading t = true.
Proof.
  unfold returning, reading. intros [Hh Hpc].
  destruct (todo t) as [|o ?]; simpl in Hh; [discriminate|].
  injection Hh as ->. rewrite Hpc. reflexivity.
Qed.

Lemma step_reader_inv i st st' :
  step i st = Some st' → lock_inv st → reader_inv st → reader_inv st'.
Proof.
  intros Hstep [Hwf Hw Hr Hrw Htmp] Hrd.
  destruct st as [[[e n] v] out pl]. unfold reader_inv in *. simpl in *.
  step_cases Hstep.
  all: unfold shared_mutex.lock, shared_mutex.lock_shared in He; simpl in He.
  all: try (destruct e; simpl in He; try discriminate).
  all: try (destruct n; simpl in He; try discriminate).
  all: injection He as <- <- <-.
  all: unfold advance; simpl.
  all: intros j tj Hj Hret;
       apply list_lookup_insert_Some in Hj as [(-> & <- & _)|(Hne & Hj)].
  all: try (destruct Hret as [Hh Hpc]; simpl in *; congruence).
  all: try exact (Hrd j tj Hj Hret).
  all: exfalso; pose proof (returning_reading _ Hret) as Hrj;
       pose proof (tally_one (λ x, Nat.b2n (reading x)) _ _ _ Hj) as H1;
       pose proof (tally_one (λ x, Nat.b2n (writing x)) _ _ _ Hi) as H2;
       unfold inside in *; simpl in *; rewrite Hrj in H1; simpl in *;
       try specialize (Hrw eq_refl); lia.
Qed.

Lemma reader_inv_boot c programs : reader_inv (boot c programs).
Proof.
  intros i t Hi [_ Hpc]. simpl in Hi.
  apply list_lookup_fmap_Some in Hi as (p & -> & _). discriminate Hpc.
Qed.

Lemma run_reader_inv schedule st :
  lock_inv st → reader_inv st → reader_inv (run schedule st).
Proof.
  revert st. induction schedule as [|i schedule IH]; intros st Hl Hrd; simpl.
  - exact Hrd.
  - apply IH.
    + apply sched_step_lock_inv. exact Hl.
    + unfold sched_step. destruct (step i st) as [st'|] eqn:Hstep; simpl.
      * eapply step_reader_inv; eassumption.
      * exact Hrd.
Qed.

(** X2.  Under every schedule, when a [get()] returns, the value it hands to
    its caller is the value the counter holds at that instant, and the
    counter holds it still. *)
Lemma get_returns_current v programs schedule i t rest :
  let st := run schedule (boot (counter_at v) programs) in
  pool st !! i = Some t → todo t = OpGet :: rest → pc t = 3 →
  ∃ st' t', step i st = Some st'
            ∧ pool st' !! i = Some t'
            ∧ todo t' = rest
            ∧ results t' = results t ++ [value_ (counter st)]
            ∧ value_ (counter st') = value_ (counter st).
Proof.
  intros st Hi Htodo Hpc.
  assert (lock_inv st) as Hl by (apply run_lock_inv, lock_inv_boot; reflexivity).
  assert (reader_inv st) as Hrd.
  { apply run_reader_inv; [apply lock_inv_boot; reflexivity|].
    apply reader_inv_boot. }
  assert (returning t) as Hret by (split; [rewrite Htodo|]; done).
  pose proof (Hrd _ _ Hi Hret) as Hval.
  pose proof (lookup_lt_Some _ _ _ Hi) as Hlen.
  unfold step. rewrite Hi. simpl. rewrite Htodo. simpl. rewrite Hpc. simpl.
  eexists _, _. split; [reflexivity|]. simpl.
  split; [apply list_lookup_insert_eq; exact Hlen|].
  unfold advance. rewrite Htodo, Hpc, Hval. simpl. done.
Qed.

(** ** Conversion to [double] *)

Section ToDouble.

Local Open Scope Z_scope.

Lemma digits2_iter_xO p k :
  Zpos (digits2_pos (Pos.iter xO p k)) = Zpos (digits2_pos p) + Zpos k.
Proof.
  induction k as [|k IH] using Pos.peano_ind.
  - simpl. lia.
  - rewrite Pos.iter_succ. simpl. lia.
Qed.

Lemma Zpos_iter_xO p k : Zpos (Pos.iter xO p k) = Zpos p * 2 ^ Zpos k.
Proof.
  induction k as [|k IH] using Pos.peano_ind.
  - simpl. lia.
  - rewrite Pos.iter_succ, Pos2Z.inj_succ, Z.pow_succ_r by lia.
    rewrite Pos2Z.inj_xO, IH. lia.
Qed.

Lemma digits2_bounds p :
  2 ^ (Zpos (digits2_pos p) - 1) ≤ Zpos p < 2 ^ Zpos (digits2_pos p).
Proof.
  induction p as [p IH|p IH|]; simpl digits2_pos.
  - rewrite Pos2Z.inj_succ, Z.pow_succ_r by lia.
    replace (Z.succ (Zpos (digits2_pos p)) - 1)
      with (Z.succ (Zpos (digits2_pos p) - 1)) by lia.
    rewrite Z.pow_succ_r by lia. lia.
  - rewrite Pos2Z.inj_succ, Z.pow_succ_r by lia.
    replace (Z.succ (Zpos (digits2_pos p)) - 1)
      with (Z.succ (Zpos (digits2_pos p) - 1)) by lia.
    rewrite Z.pow_succ_r by lia. lia.
  - simpl. lia.
Qed.

Lemma digits2_le p b : 0 ≤ b → Zpos p < 2 ^ b → Zpos (digits2_pos p) ≤ b.
Proof.
  intros Hb Hp. pose proof (digits2_bounds p) as [Hlo _].
  destruct (Z_le_gt_dec (Zpos (digits2_pos p)) b) as [|Hgt]; [assumption|].
  exfalso.
  assert (2 ^ b ≤ 2 ^ (Zpos (digits2_pos p) - 1)).
  { apply Z.pow_le_mono_r; lia. }
  lia.
Qed.

(** A mantissa of exactly [prec] digits is kept as it is. *)
Lemma binary_round_aux_canonical sx m e :
  Zpos (digits2_pos m) = chrono.prec →
  -1074 ≤ e ≤ 971 →
  binary_round_aux chrono.prec chrono.emax sx (Zpos m) e loc_Exact
  = S754_finite sx m e.
Proof.
  intros Hd He.
  assert (shr_fexp chrono.prec chrono.emax (Zpos m) e loc_Exact
          = ({| shr_m := Zpos m; shr_r := false; shr_s := false |}, e)) as Hshr.
  { unfold shr_fexp, fexp, emin. simpl Zdigits2. rewrite Hd.
    unfold chrono.prec, chrono.emax.
    replace (Z.max (53 + e - 53) (3 - 1024 - 53) - e) with 0 by lia.
    reflexivity. }
  unfold binary_round_aux. rewrite Hshr. simpl. rewrite Hshr. simpl.
  change (chrono.emax - chrono.prec) with 971.
  destruct (e <=? 971) eqn:Hle; [reflexivity|lia].
Qed.

Lemma round_nearest_even_pos q l :
  round_nearest_even (Zpos q) l = Zpos q
  ∨ round_nearest_even (Zpos q) l = Zpos (Pos.succ q).
Proof.
  rewrite Pos2Z.inj_succ. unfold round_nearest_even.
  destruct l as [|[]]; try (left; reflexivity).
  - destruct (Z.even (Zpos q)); [left; reflexivity | right; lia].
  - right. lia.
Qed.

Lemma digits2_succ q :
  digits2_pos (Pos.succ q) = digits2_pos q
  ∨ digits2_pos (Pos.succ q) = Pos.succ (digits2_pos q).
Proof.
  induction q as [q IH|q IH|]; simpl.
  - destruct IH as [-> | ->]; [left | right]; reflexivity.
  - left. reflexivity.
  - right. reflexivity.
Qed.

(** Shifting a mantissa right by fewer places than it has digits leaves
    a positive mantissa, that many digits shorter. *)
Lemma iter_shr_1_pos k : ∀ mrs p,
  shr_m mrs = Zpos p →
  Zpos k < Zpos (digits2_pos p) →
  ∃ q, shr_m (iter_pos shr_1 k mrs) = Zpos q
       ∧ Zpos (digits2_pos q) = Zpos (digits2_pos p) - Zpos k.
Proof.
  assert (∀ mrs p, shr_m mrs = Zpos p → 1 < Zpos (digits2_pos p) →
            ∃ q, shr_m (shr_1 mrs) = Zpos q
                 ∧ Zpos (digits2_pos q) = Zpos (digits2_pos p) - 1) as H1.
  { intros [m r s] p Hm Hp. simpl in Hm. subst m.
    destruct p as [p|p|]; simpl in *; try lia;
      (exists p; split; [reflexivity | lia]). }
  induction k as [k IH|k IH|]; intros mrs p Hm Hk; simpl.
  - destruct (H1 mrs p Hm) as (q1 & Hq1 & Hd1); [lia|].
    destruct (IH _ q1 Hq1) as (q2 & Hq2 & Hd2); [lia|].
    destruct (IH _ q2 Hq2) as (q3 & Hq3 & Hd3); [lia|].
    exists q3. split; [assumption | lia].
  - destruct (IH _ p Hm) as (q2 & Hq2 & Hd2); [lia|].
    destruct (IH _ q2 Hq2) as (q3 & Hq3 & Hd3); [lia|].
    exists q3. split; [assumption | lia].
  - apply H1; [assumption | lia].
Qed.

(** A mantissa of more than [prec] digits is rounded to a finite
    number. *)
Lemma binary_round_aux_long sx m :
  chrono.prec < Zpos (digits2_pos m) ≤ 900 →
  ∃ m' e', binary_round_aux chrono.prec chrono.emax sx (Zpos m) 0 loc_Exact
           = S754_finite sx m' e'.
Proof.
  intros Hd. unfold chrono.prec, chrono.emax in *.
  set (d := Zpos (digits2_pos m)) in *.
  unfold binary_round_aux.
  unfold shr_fexp at 1, fexp, emin. simpl Zdigits2. fold d.
  replace (Z.max (d + 0 - 53) (3 - 1024 - 53) - 0) with (d - 53) by lia.
  destruct (d - 53) as [|k|k] eqn:Hk; try lia.
  unfold shr.
  destruct (iter_shr_1_pos k {| shr_m := Zpos m; shr_r := false; shr_s := false |} m)
    as (q & Hq & Hdq); [reflexivity | fold d; lia |].
  fold d in Hdq.
  set (mrs' := iter_pos shr_1 k _) in *.
  rewrite Hq.
  destruct (round_nearest_even_pos q (loc_of_shr_record mrs')) as [-> | ->].
  - unfold shr_fexp, fexp, emin. simpl Zdigits2.
    replace (Z.max (Zpos (digits2_pos q) + (0 + Zpos k) - 53) (3 - 1024 - 53)
             - (0 + Zpos k)) with 0 by lia.
    simpl. change (1024 - 53) with 971.
    match goal with
      | |- context [?a <=? 971] =>
          destruct (a <=? 971) eqn:Hle; [eexists _, _; reflexivity | lia]
      end.
  - unfold shr_fexp, fexp, emin. simpl Zdigits2.
    destruct (digits2_succ q) as [Hs | Hs]; rewrite Hs.
    + replace (Z.max (Zpos (digits2_pos q) + (0 + Zpos k) - 53) (3 - 1024 - 53)
               - (0 + Zpos k)) with 0 by lia.
      simpl. change (1024 - 53) with 971.
      match goal with
      | |- context [?a <=? 971] =>
          destruct (a <=? 971) eqn:Hle; [eexists _, _; reflexivity | lia]
      end.
    + replace (Z.max (Zpos (Pos.succ (digits2_pos q)) + (0 + Zpos k) - 53)
                 (3 - 1024 - 53) - (0 + Zpos k)) with 1 by lia.
      unfold shr, shr_record_of_loc.
      destruct (iter_shr_1_pos 1
                  {| shr_m := Zpos (Pos.succ q); shr_r := false; shr_s := false |}
                  (Pos.succ q)) as (q' & Hq' & _); [reflexivity | lia |].
      rewrite Hq'. change (1024 - 53) with 971.
      match goal with
      | |- context [?a <=? 971] =>
          destruct (a <=? 971) eqn:Hle; [eexists _, _; reflexivity | lia]
      end.
Qed.

Lemma binary_round_short sx p :
  Zpos (digits2_pos p) ≤ chrono.prec →
  ∃ m e, binary_round chrono.prec chrono.emax sx p 0 = S754_finite sx m e
         ∧ -52 ≤ e ≤ 0 ∧ Zpos m = Zpos p * 2 ^ (- e).
Proof.
  unfold chrono.prec, chrono.emax. intros Hd.
  unfold binary_round, fexp, emin.
  set (d := Zpos (digits2_pos p)) in *.
  assert (1 ≤ d) as Hd1 by (unfold d; lia).
  replace (Z.max (d + 0 - 53) (3 - 1024 - 53)) with (d - 53) by lia.
  unfold shl_align. rewrite Z.sub_0_r.
  destruct (d - 53) as [|k|k] eqn:Hk; try lia.
  - exists p, 0. split; [|simpl; lia].
    apply binary_round_aux_canonical; [fold d; unfold chrono.prec|]; lia.
  - exists (Pos.iter xO p k), (Zneg k). split; [|split; [lia|]].
    + apply binary_round_aux_canonical; [|lia].
      rewrite digits2_iter_xO. fold d. unfold chrono.prec. lia.
    + rewrite Zpos_iter_xO. reflexivity.
Qed.

Lemma to_double_zero : chrono.to_double 0 = S754_zero false.
Proof. reflexivity. Qed.


(** Every positive [intmax_t] is converted to a positive finite
    number. *)
Lemma to_double_finite n :
  0 < n < 2 ^ chrono.intmax_bits →
  ∃ m e, chrono.to_double n = S754_finite false m e.
Proof.
  unfold chrono.intmax_bits. intros Hn. destruct n as [|p|p]; try lia.
  unfold chrono.to_double, binary_normalize.
  destruct (Z_le_gt_dec (Zpos (digits2_pos p)) chrono.prec) as [Hle|Hgt].
  - destruct (binary_round_short false p Hle) as (m & e & -> & _).
    eauto.
  - assert (Zpos (digits2_pos p) ≤ 63) by (apply digits2_le; lia).
    unfold chrono.prec in Hgt.
    unfold binary_round, fexp, emin, chrono.prec, chrono.emax.
    replace (Z.max (Zpos (digits2_pos p) + 0 - 53) (3 - 1024 - 53))
      with (Zpos (digits2_pos p) - 53) by lia.
    unfold shl_align. rewrite Z.sub_0_r.
    destruct (Zpos (digits2_pos p) - 53) as [|k|k] eqn:Hk; try lia.
    apply (binary_round_aux_long false p). unfold chrono.prec. lia.
Qed.

End ToDouble.

(** ** [duration_cast] *)

Section DurationCast.

Local Open Scope Z_scope.

(** A value of the type is what it is converted to. *)
Lemma wrap_signed_fits bits z :
  chrono.fits bits z → chrono.wrap_signed bits z = z.
Proof.
  unfold chrono.fits, chrono.wrap_signed. intros Hz.
  destruct (Z.le_gt_cases bits 0) as [Hb|Hb].
  - rewrite (Z.pow_neg_r 2 (bits - 1)) in Hz by lia. lia.
  - assert (2 ^ bits = 2 * 2 ^ (bits - 1)) as ->.
    { rewrite <- Z.pow_succ_r by lia. f_equal. lia. }
    rewrite Z.mod_small by lia. lia.
Qed.

Lemma wrap_signed_zero bits : chrono.wrap_signed bits 0 = 0.
Proof.
  destruct (Z.le_gt_cases bits 0) as [Hb|Hb].
  - unfold chrono.wrap_signed.
    rewrite (Z.pow_neg_r 2 (bits - 1)) by lia. rewrite Zmod_0_l. reflexivity.
  - apply wrap_signed_fits. unfold chrono.fits.
    assert (0 < 2 ^ (bits - 1)) by (apply Z.pow_pos_nonneg; lia). lia.
Qed.

Lemma narrow_fits bits z : chrono.fits bits z → chrono.narrow bits z = z.
Proof.
  intros Hz. unfold chrono.narrow.
  destruct (bits <? chrono.common_bits bits);
    [by apply wrap_signed_fits | reflexivity].
Qed.

Lemma narrow_zero bits : chrono.narrow bits 0 = 0.
Proof.
  unfold chrono.narrow.
  destruct (bits <? chrono.common_bits bits);
    [apply wrap_signed_zero | reflexivity].
Qed.

(** When the product fits the common type and the quotient fits the
    destination, the four cases of an integral [duration_cast] are one
    formula. *)
Lemma duration_cast_integral from To bits n :
  chrono.rep_of To = chrono.integral bits →
  let cf := chrono.ratio_divide from (chrono.period To) in
  chrono.fits (chrono.common_bits bits) (n * chrono.num cf) →
  chrono.fits bits (n * chrono.num cf ÷ chrono.den cf) →
  chrono.duration_cast from To n = chrono.int_count (n * chrono.num cf ÷ chrono.den cf).
Proof.
  intros Hrep cf Hp Hq. unfold chrono.duration_cast. rewrite Hrep. fold cf.
  clearbody cf. f_equal. rewrite (wrap_signed_fits _ _ Hp).
  rewrite <- (narrow_fits _ _ Hq) at 2. f_equal.
  destruct (chrono.num cf =? 1) eqn:Hn; destruct (chrono.den cf =? 1) eqn:Hd;
    simpl; try apply Z.eqb_eq in Hn; try apply Z.eqb_eq in Hd;
    rewrite ?Hn, ?Hd, ?Z.mul_1_r, ?Z.quot_1_r; reflexivity.
Qed.

Lemma duration_cast_zero from To :
  chrono.castable from To →
  chrono.duration_cast from To 0 = chrono.zero To.
Proof.
  unfold chrono.castable, chrono.duration_cast, chrono.zero.
  set (cf := chrono.ratio_divide _ _). clearbody cf. intros [Hnum Hden].
  destruct (chrono.rep_of To) as [bits|].
  - f_equal. change (0 * chrono.num cf) with 0. rewrite wrap_signed_zero.
    change (0 ÷ chrono.den cf) with 0.
    repeat case_match; apply narrow_zero.
  - f_equal. rewrite to_double_zero.
    destruct (to_double_finite (chrono.num cf) Hnum) as (mn & en & ->).
    destruct (to_double_finite (chrono.den cf) Hden) as (md & ed & ->).
    repeat case_match; reflexivity.
Qed.

Lemma static_cast_double_zero To :
  chrono.static_cast_double (chrono.zero To) = S754_zero false.
Proof. unfold chrono.zero. destruct (chrono.rep_of To); reflexivity. Qed.



End DurationCast.

(** ** The timer *)

Lemma Timer_ctor_spec this w :
  Timer_ctor this w =
    Some ((), {| clock_reading := clock_reading w;
                 timers := <[this := {| start_ := clock_reading w;
                                        end_ := clock_reading w |}]> (timers w);
                 ostream := ostream w |}).
Proof. reflexivity. Qed.

Lemma tic_spec this w t :
  timers w !! this = Some t →
  tic this w =
    Some (this, {| clock_reading := clock_reading w;
                   timers := <[this := {| start_ := clock_reading w;
                                          end_ := clock_reading w |}]> (timers w);
                   ostream := ostream w |}).
Proof.
  intros Ht. unfold tic, set_end, set_start, now, load, store.
  unfold mbind, M_bind, mret, M_ret. simpl. rewrite Ht. simpl.
  repeat (rewrite lookup_insert_eq; simpl).
  rewrite insert_insert_eq. reflexivity.
Qed.

Lemma toc_spec this w t :
  timers w !! this = Some t →
  toc this w =
    Some (this, {| clock_reading := clock_reading w;
                   timers := <[this := {| start_ := start_ t;
                                          end_ := clock_reading w |}]> (timers w);
                   ostream := ostream w |}).
Proof.
  intros Ht. unfold toc, set_end, now, load, store.
  unfold mbind, M_bind, mret, M_ret. simpl. rewrite Ht. reflexivity.
Qed.

Lemma get_duration_spec C U this w t :
  timers w !! this = Some t →
  get_duration C U this w =
    Some (chrono.duration_cast (chrono.clock_period C) U (end_ t - start_ t), w).
Proof.
  intros Ht. unfold get_duration, load.
  unfold mbind, M_bind, mret, M_ret. simpl. rewrite Ht. reflexivity.
Qed.

Lemma tics_spec C T this w t :
  timers w !! this = Some t →
  tics C T this w =
    Some (chrono.static_cast_double
            (chrono.duration_cast (chrono.clock_period C) T (end_ t - start_ t)),
          w).
Proof.
  intros Ht. unfold tics, load.
  unfold mbind, M_bind, mret, M_ret. simpl. rewrite Ht. reflexivity.
Qed.

(** A method called on an address that holds no timer fails. *)
Lemma dangling this w C T :
  timers w !! this = None →
  tic this w = None ∧ toc this w = None
  ∧ tics C T this w = None ∧ get_duration C T this w = None.
Proof.
  intros Ht. unfold tic, toc, tics, get_duration, set_end, now, load.
  unfold mbind, M_bind. simpl. rewrite Ht. done.
Qed.

Lemma repeatedly_const {A} (m : M A) w x n :
  m w = Some (x, w) → repeatedly n m w = Some (replicate n x, w).
Proof.
  intros Hm. induction n as [|n IH]; simpl.
  - reflexivity.
  - unfold mbind, M_bind. rewrite Hm, IH. reflexivity.
Qed.

(** *** The monotonic clock *)

Lemma monotone_empty reading : monotone (empty_world reading).
Proof. intros this t Ht. simpl in Ht. by rewrite lookup_empty in Ht. Qed.

Lemma monotone_elapse d w w' :
  monotone w → elapse d w = Some ((), w') → monotone w'.
Proof.
  intros Hw [= <-] this t Ht. simpl in *.
  destruct (Hw this t Ht). lia.
Qed.

Lemma monotone_ctor this w w' :
  monotone w → Timer_ctor this w = Some ((), w') → monotone w'.
Proof.
  rewrite Timer_ctor_spec. intros Hw [= <-] a t Ht. simpl in *.
  apply lookup_insert_Some in Ht as [[_ <-]|[_ Ht]]; simpl.
  - lia.
  - exact (Hw a t Ht).
Qed.

Lemma monotone_tic this w r w' :
  monotone w → tic this w = Some (r, w') → monotone w'.
Proof.
  intros Hw Htic. destruct (timers w !! this) as [t0|] eqn:H0.
  - rewrite (tic_spec _ _ _ H0) in Htic. injection Htic as _ <-.
    intros a t Ht. simpl in *.
    apply lookup_insert_Some in Ht as [[_ <-]|[_ Ht]]; simpl.
    + lia.
    + exact (Hw a t Ht).
  - destruct (dangling this w chrono.steady_clock chrono.milliseconds H0)
      as [Hnone _]. congruence.
Qed.

Lemma monotone_toc this w r w' :
  monotone w → toc this w = Some (r, w') → monotone w'.
Proof.
  intros Hw Htoc. destruct (timers w !! this) as [t0|] eqn:H0.
  - rewrite (toc_spec _ _ _ H0) in Htoc. injection Htoc as _ <-.
    intros a t Ht. simpl in *.
    apply lookup_insert_Some in Ht as [[_ <-]|[_ Ht]]; simpl.
    + destruct (Hw this t0 H0). lia.
    + exact (Hw a t Ht).
  - destruct (dangling this w chrono.steady_clock chrono.milliseconds H0)
      as (_ & Hnone & _). congruence.
Qed.

(** * The claims *)

(** ** The counter *)

Lemma get_after_increments K c :
  at_rest c → Unsigned.in_range (value_ c) →
  get_after K increment c = Some (Some (Unsigned.wrap (value_ c + Z.of_N K))).
Proof.
  intros Hrest Hrange. unfold get_after.
  rewrite calls_increment by assumption. unfold mbind, option_bind.
  rewrite call_get by reflexivity. reflexivity.
Qed.

(** C1, as stated, fails: after [2^32] completed [increment()] calls on a
    counter that held 0, [get()] returns 0 and not [2^32]. *)
Lemma count_exact_fails_at_modulus :
  get_after 4294967296 increment (counter_at 0) = Some (Some 0%Z)
  ∧ get_after 4294967296 increment (counter_at 0) ≠ Some (Some 4294967296%Z).
Proof.
  rewrite get_after_increments; [|reflexivity|].
  - split; [reflexivity | discriminate].
  - unfold Unsigned.in_range. rewrite modulus_eq. simpl. lia.
Qed.

(** Once all threads have returned, the counter is at rest and holds the
    value it started from plus the number of [increment()] calls, modulo
    the width of the counter. *)
Lemma final_counter c0 programs schedule :
  at_rest c0 → Unsigned.in_range (value_ c0) →
  Forall no_reset programs →
  finished (run schedule (boot c0 programs)) →
  counter (run schedule (boot c0 programs))
  = counter_at (Unsigned.wrap (value_ c0 + Z.of_nat (total_increments programs))).
Proof.
  intros Hrest0 Hrange0 Hnr Hfin.
  assert (lock_inv (run schedule (boot c0 programs))) as Hl.
  { apply run_lock_inv, lock_inv_boot. assumption. }
  pose proof (run_count_inv _ schedule _ (lock_inv_boot _ programs Hrest0)
                (count_inv_boot _ _ Hrange0 Hnr)) as [Hrange _ Htot].
  pose proof (finished_at_rest _ Hl Hfin) as Hrest.
  rewrite (tally_finished pending) in Htot; [|intros t Ht|assumption].
  2: { unfold pending. rewrite Ht. reflexivity. }
  rewrite Z.add_0_r, wrap_small in Htot by assumption.
  unfold at_rest in Hrest.
  destruct (counter (run schedule (boot c0 programs))) as [m v].
  simpl in *. unfold counter_at. congruence.
Qed.

(** C1 (amended).  Threads make [increment()] and [get()] calls, and no
    [reset()] call, on a counter that holds 0.  Under every schedule, once
    all the threads have returned from their last call, [get()] returns the
    number [K] of [increment()] calls modulo [2^32]; this is [K] itself
    whenever [K < 2^32].  No update is lost. *)
Theorem count_correctness programs schedule :
  Forall no_reset programs →
  finished (run schedule (boot (counter_at 0) programs)) →
  let K := Z.of_nat (total_increments programs) in
  let c := counter (run schedule (boot (counter_at 0) programs)) in
  call get c = Some {| result := Some (Unsigned.wrap K); after := c;
                       printed := [READER (Unsigned.wrap K)] |}
  ∧ ((K < Unsigned.modulus)%Z →
     call get c = Some {| result := Some K; after := c;
                          printed := [READER K] |}).
Proof.
  intros Hnr Hfin K c.
  assert (c = counter_at (Unsigned.wrap K)) as Hc.
  { unfold c. rewrite final_counter; try assumption; try reflexivity.
    unfold Unsigned.in_range. rewrite modulus_eq. simpl. lia. }
  assert (call get c = Some {| result := Some (Unsigned.wrap K); after := c;
                               printed := [READER (Unsigned.wrap K)] |}) as Hget.
  { rewrite call_get; rewrite Hc; reflexivity. }
  split; [exact Hget|].
  intros HK. rewrite Hget, wrap_small; [reflexivity|].
  unfold Unsigned.in_range, K in *. lia.
Qed.

Lemma count_correctness_witness :
  let programs := [[OpIncrement; OpGet]; [OpIncrement; OpIncrement]; [OpGet]] in
  let schedule := mjoin (replicate 30 [0; 1; 2]) in
  Forall no_reset programs
  ∧ finished (run schedule (boot (counter_at 0) programs))
  ∧ call get (counter (run schedule (boot (counter_at 0) programs)))
    = Some {| result := Some 3%Z; after := counter_at 3;
              printed := [READER 3] |}.
Proof.
  intros programs schedule.
  assert (Forall no_reset programs) as Hnr.
  { apply (bool_decide_unpack _). vm_compute. exact I. }
  assert (finished (run schedule (boot (counter_at 0) programs))) as Hfin.
  { apply (bool_decide_unpack _). vm_compute. exact I. }
  split; [exact Hnr|]. split; [exact Hfin|].
  destruct (count_correctness programs schedule Hnr Hfin) as [_ H].
  apply H. vm_compute. reflexivity.
Defined.

(** A workload of readers and writers like that of [main]: once all
    threads are joined, the counter that held 0 holds the number of
    [increment()] calls of the writers, whatever the readers did. *)
Lemma total_increments_workload r g w k :
  total_increments
    (replicate r (replicate g OpGet) ++ replicate w (replicate k OpIncrement))
  = w * k.
Proof.
  assert (∀ n, increments_in (replicate n OpGet) = 0) as Hg
    by (induction n; simpl; congruence).
  assert (∀ n, increments_in (replicate n OpIncrement) = n) as Hi
    by (induction n; simpl; congruence).
  unfold total_increments. rewrite fmap_app, !fmap_replicate, Hg, Hi.
  induction r as [|r IH]; simpl; [|exact IH].
  induction w as [|w IH]; simpl; [reflexivity|]. rewrite IH. reflexivity.
Qed.

Lemma no_reset_workload r g w k :
  Forall no_reset
    (replicate r (replicate g OpGet) ++ replicate w (replicate k OpIncrement)).
Proof.
  apply Forall_app. split; apply Forall_replicate; unfold no_reset;
    intros [H _]%elem_of_replicate; discriminate.
Qed.

Corollary main_counts_3000 schedule :
  finished (run schedule (boot (counter_at 0) main_programs)) →
  counter (run schedule (boot (counter_at 0) main_programs)) = counter_at 3000.
Proof.
  unfold main_programs, print_counter, increment_counter. intros Hfin.
  rewrite final_counter; try assumption.
  - rewrite total_increments_workload. reflexivity.
  - reflexivity.
  - unfold Unsigned.in_range. rewrite modulus_eq. simpl. lia.
  - apply no_reset_workload.
Qed.

(** C2 (defect of the code).  The claim expects a fresh counter to hold 0.
    The counter of [main] is default-initialized and [value_] has no
    initializer: the first [get()] returns what the storage held, here
    [0xDEADBEEF]. *)
Theorem default_initialized_counter_reads_storage :
  call get (ThreadSafeCounter_default_init 3735928559)
  = Some {| result := Some 3735928559%Z;
            after := ThreadSafeCounter_default_init 3735928559;
            printed := [READER 3735928559] |}
  ∧ result <$> call get (ThreadSafeCounter_default_init 3735928559)
    ≠ Some (Some 0%Z).
Proof. split; [reflexivity | discriminate]. Qed.

(** Whatever the storage held is what the first [get()] returns. *)
Lemma first_get_returns_storage storage :
  Unsigned.in_range storage →
  result <$> call get (ThreadSafeCounter_default_init storage)
  = Some (Some storage).
Proof.
  intros Hs. rewrite call_get by reflexivity. simpl.
  rewrite wrap_small by assumption. reflexivity.
Qed.

(** C3, as stated, fails: on a counter that holds [UINT_MAX = 2^32 - 1],
    [increment()] leaves 0 and not [UINT_MAX + 1]. *)
Lemma increment_at_max_is_not_successor :
  value_ ∘ after <$> call increment (counter_at Unsigned.UINT_MAX)
  = Some 0%Z
  ∧ value_ ∘ after <$> call increment (counter_at Unsigned.UINT_MAX)
    ≠ Some (Unsigned.UINT_MAX + 1)%Z.
Proof. split; [reflexivity | discriminate]. Qed.

(** C3 (amended).  On a counter at rest that holds [v], [increment()]
    returns and leaves [(v + 1) mod 2^32], that is [v + 1] unless [v] is
    [UINT_MAX], in which case it leaves 0; [mutex_], the other field, is
    as it was. *)
Theorem increment_adds_one_modulo c :
  at_rest c →
  Unsigned.in_range (value_ c) →
  ∃ r, call increment c = Some r
       ∧ value_ (after r) = Unsigned.wrap (value_ c + 1)
       ∧ value_ (after r)
         = (if decide (value_ c = Unsigned.UINT_MAX) then 0 else value_ c + 1)%Z
       ∧ mutex_ (after r) = mutex_ c
       ∧ result r = None.
Proof.
  intros Hrest Hrange. rewrite call_increment by assumption.
  eexists. split; [reflexivity|]. simpl. repeat split.
  unfold Unsigned.in_range, Unsigned.UINT_MAX, Unsigned.wrap in *.
  rewrite modulus_eq in *. case_decide as Hmax.
  - rewrite Hmax. reflexivity.
  - apply Z.mod_small. lia.
Qed.

Lemma increment_adds_one_modulo_witness :
  at_rest (counter_at 41) ∧ Unsigned.in_range 41
  ∧ ∃ r, call increment (counter_at 41) = Some r
         ∧ value_ (after r) = 42%Z.
Proof.
  assert (at_rest (counter_at 41)) as Hrest by reflexivity.
  assert (Unsigned.in_range (value_ (counter_at 41))) as Hrange
    by (vm_compute; split; [discriminate | reflexivity]).
  split; [exact Hrest|]. split; [exact Hrange|].
  destruct (increment_adds_one_modulo (counter_at 41) Hrest Hrange)
    as (r & Hcall & _ & Hv & _).
  exists r. split; [exact Hcall | exact Hv].
Defined.

(** C4, as stated, fails: after [reset()], [2^32] calls of [increment()]
    followed by [get()] return 0 and not [2^32]. *)
Lemma reset_then_increments_wraps :
  ∃ c0, after <$> call reset (counter_at 7) = Some c0
        ∧ get_after 4294967296 increment c0 = Some (Some 0%Z)
        ∧ get_after 4294967296 increment c0 ≠ Some (Some 4294967296%Z).
Proof.
  exists (counter_at 0). split; [reflexivity|].
  rewrite get_after_increments; [|reflexivity|].
  - split; [reflexivity | discriminate].
  - unfold Unsigned.in_range. rewrite modulus_eq. simpl. lia.
Qed.

(** C4 (amended).  On a counter at rest, whatever it holds, [reset()]
    returns and leaves 0: the next [get()] returns 0, and [J] calls of
    [increment()] followed by [get()] return [J mod 2^32], that is [J]
    whenever [J < 2^32]. *)
Theorem reset_correctness c J :
  at_rest c →
  ∃ c0, after <$> call reset c = Some c0
        ∧ value_ c0 = 0%Z
        ∧ mutex_ c0 = mutex_ c
        ∧ result <$> call get c0 = Some (Some 0%Z)
        ∧ get_after J increment c0 = Some (Some (Unsigned.wrap (Z.of_N J)))
        ∧ ((Z.of_N J < Unsigned.modulus)%Z →
           get_after J increment c0 = Some (Some (Z.of_N J))).
Proof.
  intros Hrest. rewrite call_reset by assumption.
  eexists. split; [reflexivity|]. simpl.
  assert (Unsigned.in_range 0) as H0
    by (unfold Unsigned.in_range; rewrite modulus_eq; lia).
  split; [reflexivity|]. split; [reflexivity|].
  split. { rewrite call_get; [reflexivity|]. simpl. rewrite Hrest. reflexivity. }
  assert (get_after J increment {| mutex_ := mutex_ c; value_ := 0 |}
          = Some (Some (Unsigned.wrap (Z.of_N J)))) as HJ.
  { rewrite get_after_increments; [reflexivity | exact Hrest | exact H0]. }
  split; [exact HJ|].
  intros Hlt. rewrite HJ, wrap_small; [reflexivity|].
  unfold Unsigned.in_range. lia.
Qed.

Lemma reset_correctness_witness :
  at_rest (counter_at 7)
  ∧ ∃ c0, after <$> call reset (counter_at 7) = Some c0
          ∧ result <$> call get c0 = Some (Some 0%Z)
          ∧ get_after 5 increment c0 = Some (Some 5%Z).
Proof.
  assert (at_rest (counter_at 7)) as Hrest by reflexivity.
  split; [exact Hrest|].
  destruct (reset_correctness (counter_at 7) 5 Hrest)
    as (c0 & Hreset & _ & _ & Hget & _ & HJ).
  exists c0. split; [exact Hreset|]. split; [exact Hget|].
  apply HJ. reflexivity.
Defined.

(** C5.  On every counter whose mutex is not held by a writer, with [v]
    the value it holds, [get()] returns [v] and leaves the counter, [v]
    included, as it was. *)
Theorem get_returns_value_unchanged c :
  shared_mutex.exclusive (mutex_ c) = false →
  ∃ r, call get c = Some r
       ∧ result r = Some (value_ c)
       ∧ value_ (after r) = value_ c
       ∧ after r = c.
Proof.
  intros Hex. rewrite call_get by assumption.
  eexists. split; [reflexivity|]. simpl. done.
Qed.

Lemma get_returns_value_unchanged_witness :
  shared_mutex.exclusive (mutex_ (counter_at 7)) = false
  ∧ ∃ r, call get (counter_at 7) = Some r
         ∧ result r = Some 7%Z
         ∧ value_ (after r) = 7%Z
         ∧ after r = counter_at 7.
Proof.
  split; [reflexivity|].
  apply (get_returns_value_unchanged (counter_at 7)). reflexivity.
Defined.

(** In a running system too no action of [get()] writes [value_]. *)
Lemma get_step_keeps_value i st st' t rest :
  step i st = Some st' →
  pool st !! i = Some t → todo t = OpGet :: rest →
  value_ (counter st') = value_ (counter st).
Proof.
  intros Hstep Hi Ht. destruct st as [[m v] out pl].
  step_cases Hstep; simpl in *; rewrite Hi in Hi0; injection Hi0 as ->;
    simpl in Ht; try discriminate.
  all: try (destruct (shared_mutex.lock_shared m); simpl in He;
            [|discriminate]).
  all: injection He as <- <- <-; reflexivity.
Qed.

(** C6.  Under every schedule of threads making any calls on one counter,
    at every instant at most one thread is inside the body of
    [increment()] or [reset()]: the count of the threads between the
    construction and the destruction of their [unique_lock] never exceeds
    1. *)
Theorem writers_mutually_exclusive v programs schedule :
  inside writing (pool (run schedule (boot (counter_at v) programs))) ≤ 1.
Proof.
  assert (lock_inv (run schedule (boot (counter_at v) programs))) as Hinv.
  { apply run_lock_inv, lock_inv_boot. reflexivity. }
  rewrite (inv_writers _ Hinv). apply b2n_le_1.
Qed.

(** The same, thread by thread: two threads inside a writer body are the
    same thread. *)
Corollary writers_pairwise_exclusive v programs schedule i j ti tj :
  let st := run schedule (boot (counter_at v) programs) in
  pool st !! i = Some ti → pool st !! j = Some tj →
  writing ti = true → writing tj = true → i = j.
Proof.
  intros st. apply lock_inv_exclusion.
  apply run_lock_inv, lock_inv_boot. reflexivity.
Qed.

(** X1.  While a writer is inside, no reader is: [get()] never reads a
    half-done update. *)
Lemma readers_exclude_writers v programs schedule :
  let st := run schedule (boot (counter_at v) programs) in
  inside writing (pool st) = 1 → inside reading (pool st) = 0.
Proof.
  intros st Hw.
  assert (lock_inv st) as Hinv.
  { apply run_lock_inv, lock_inv_boot. reflexivity. }
  rewrite (inv_writers _ Hinv) in Hw. rewrite (inv_readers _ Hinv).
  apply (inv_rw _ Hinv).
  destruct (shared_mutex.exclusive _); [reflexivity | discriminate].
Qed.

(** A writer is inside and the second writer waits: scheduled three
    times, it has not moved. *)
Example second_writer_waits :
  let st := run [0; 0; 1; 1; 1]
              (boot (counter_at 0) [[OpIncrement]; [OpIncrement]]) in
  inside writing (pool st) = 1 ∧ pc <$> pool st = [2; 0].
Proof. split; reflexivity. Qed.

(** C9.  The counter is 32 bits wide, and on a counter at rest that holds
    [2^32 - 1] the call [increment()] returns, neither failing nor
    saturating, and leaves 0, a value within the 32 bits. *)
Theorem increment_wraps_modulo_2_32 c :
  at_rest c →
  value_ c = 4294967295%Z →
  Unsigned.bits = 32%Z
  ∧ ∃ r, call increment c = Some r
         ∧ value_ (after r) = 0%Z
         ∧ Unsigned.in_range (value_ (after r)).
Proof.
  intros Hrest Hmax. split; [reflexivity|].
  rewrite call_increment by assumption.
  eexists. split; [reflexivity|]. simpl. rewrite Hmax.
  split; [reflexivity|]. vm_compute. split; [discriminate | reflexivity].
Qed.

Lemma increment_wraps_modulo_2_32_witness :
  at_rest (counter_at 4294967295)
  ∧ value_ (counter_at 4294967295) = 4294967295%Z
  ∧ ∃ r, call increment (counter_at 4294967295) = Some r
         ∧ value_ (after r) = 0%Z.
Proof.
  split; [reflexivity|]. split; [reflexivity|].
  destruct (increment_wraps_modulo_2_32 (counter_at 4294967295)
              eq_refl eq_refl) as (_ & r & Hcall & Hv & _).
  exists r. split; [exact Hcall | exact Hv].
Defined.

(** Every action keeps the value within the 32 bits. *)
Lemma exec_in_range s c f c' f' out :
  Unsigned.in_range (value_ c) →
  exec s c f = Some (c', f', out) →
  Unsigned.in_range (value_ c').
Proof.
  intros Hrange He. destruct s; simpl in He.
  all: try (destruct (shared_mutex.lock_shared _); simpl in He; [|discriminate]).
  all: try (destruct (shared_mutex.lock _); simpl in He; [|discriminate]).
  all: injection He as <- _ _; simpl; try assumption.
  - apply wrap_in_range.
  - unfold Unsigned.in_range. rewrite modulus_eq. lia.
Qed.

(** ** The timer *)

(** From [end_ = start_] every unit reads zero. *)
Lemma reads_zero C T this w t :
  chrono.castable (chrono.clock_period C) T →
  timers w !! this = Some t →
  end_ t = start_ t →
  tics C T this w = Some (S754_zero false, w)
  ∧ get_duration C T this w = Some (chrono.zero T, w).
Proof.
  intros Hcf Ht Heq.
  rewrite (tics_spec _ _ _ _ _ Ht), (get_duration_spec _ _ _ _ _ Ht).
  rewrite Heq, Z.sub_diag, duration_cast_zero by assumption.
  rewrite static_cast_double_zero. done.
Qed.

(** C7.  On a live timer [tic()] returns [this], the instance it was
    called on, and leaves both [start_] and [end_] at the current reading
    of the clock; read then, before any [toc()], even after time has
    passed, the elapsed duration is zero in every unit. *)
Theorem tic_resets_to_now C T this w t d :
  chrono.castable (chrono.clock_period C) T →
  timers w !! this = Some t →
  ∃ w', tic this w = Some (this, w')
        ∧ timers w' !! this
          = Some {| start_ := clock_reading w; end_ := clock_reading w |}
        ∧ tics C T this w' = Some (S754_zero false, w')
        ∧ get_duration C T this w' = Some (chrono.zero T, w')
        ∧ (elapse d;; tics C T this) w'
          = (elapse d;; mret (S754_zero false)) w'.
Proof.
  intros Hcf Ht. rewrite (tic_spec _ _ _ Ht).
  eexists. split; [reflexivity|].
  set (w' := {| clock_reading := _ |}).
  assert (timers w' !! this
          = Some {| start_ := clock_reading w; end_ := clock_reading w |}) as Ht'
    by apply lookup_insert_eq.
  split; [exact Ht'|].
  destruct (reads_zero C T this w' _ Hcf Ht' eq_refl) as [Htics Hdur].
  split; [exact Htics|]. split; [exact Hdur|].
  unfold mbind, M_bind, elapse.
  exact (proj1 (reads_zero C T this
                  {| clock_reading := clock_reading w' + Z.of_N d;
                     timers := timers w'; ostream := ostream w' |}
                  _ Hcf Ht' eq_refl)).
Qed.

Lemma tic_resets_to_now_witness :
  let w := {| clock_reading := 500;
              timers := {[ 0 := {| start_ := 3; end_ := 90 |} ]};
              ostream := [] |} in
  chrono.castable (chrono.clock_period chrono.steady_clock) chrono.milliseconds
  ∧ timers w !! 0 = Some {| start_ := 3; end_ := 90 |}
  ∧ ∃ w', tic 0 w = Some (0, w')
          ∧ timers w' !! 0 = Some {| start_ := 500; end_ := 500 |}
          ∧ tics chrono.steady_clock chrono.milliseconds 0 w'
            = Some (S754_zero false, w').
Proof.
  intros w.
  assert (chrono.castable (chrono.clock_period chrono.steady_clock)
            chrono.milliseconds) as Hcf by (vm_compute; done).
  assert (timers w !! 0 = Some {| start_ := 3; end_ := 90 |}) as Ht
    by reflexivity.
  split; [exact Hcf|]. split; [exact Ht|].
  destruct (tic_resets_to_now chrono.steady_clock chrono.milliseconds
              0 w _ 25 Hcf Ht) as (w' & Htic & Hnew & Htics & _).
  exists w'. split; [exact Htic|]. split; [exact Hnew | exact Htics].
Defined.

(** [tics()] and [get_duration()] are [const]: the world they leave is
    the world they found. *)
Lemma reads_leave_world C T this w :
  (∀ x w', tics C T this w = Some (x, w') → w' = w)
  ∧ (∀ x w', get_duration C T this w = Some (x, w') → w' = w).
Proof.
  destruct (timers w !! this) as [t|] eqn:Ht.
  - rewrite (tics_spec _ _ _ _ _ Ht), (get_duration_spec _ _ _ _ _ Ht).
    split; intros x w' [= _ <-]; reflexivity.
  - destruct (dangling this w C T Ht) as (_ & _ & -> & ->).
    split; intros x w'; discriminate.
Qed.

(** C8.  The constructor leaves [end_ = start_], the reading of the
    clock.  Reading the elapsed duration then, before any [toc()], is no
    error: [tics()] and [get_duration()], called any number [n] of times,
    return zero each time and leave the world, the timer included, as it
    was. *)
Theorem fresh_timer_reads_zero C T this w n :
  chrono.castable (chrono.clock_period C) T →
  ∃ w', Timer_ctor this w = Some ((), w')
        ∧ timers w' !! this
          = Some {| start_ := clock_reading w; end_ := clock_reading w |}
        ∧ repeatedly n (tics C T this) w'
          = Some (replicate n (S754_zero false), w')
        ∧ repeatedly n (get_duration C T this) w'
          = Some (replicate n (chrono.zero T), w').
Proof.
  intros Hcf. rewrite Timer_ctor_spec. eexists. split; [reflexivity|].
  set (w' := {| clock_reading := _ |}).
  assert (timers w' !! this
          = Some {| start_ := clock_reading w; end_ := clock_reading w |}) as Ht'
    by apply lookup_insert_eq.
  split; [exact Ht'|].
  destruct (reads_zero C T this w' _ Hcf Ht' eq_refl) as [Htics Hdur].
  split; apply repeatedly_const; assumption.
Qed.

Lemma fresh_timer_reads_zero_witness :
  chrono.castable (chrono.clock_period chrono.steady_clock) chrono.seconds_double
  ∧ ∃ w', Timer_ctor 0 (empty_world 77) = Some ((), w')
          ∧ timers w' !! 0 = Some {| start_ := 77; end_ := 77 |}
          ∧ repeatedly 3 (tics chrono.steady_clock chrono.seconds_double 0) w'
            = Some (replicate 3 (S754_zero false), w').
Proof.
  assert (chrono.castable (chrono.clock_period chrono.steady_clock)
            chrono.seconds_double) as Hcf by (vm_compute; done).
  split; [exact Hcf|].
  destruct (fresh_timer_reads_zero chrono.steady_clock chrono.seconds_double
              0 (empty_world 77) 3 Hcf) as (w' & Hctor & Hnew & Htics & _).
  exists w'. split; [exact Hctor|]. split; [exact Hnew | exact Htics].
Defined.

(** Under a monotonic clock a timer is never stopped before it was
    started. *)
Lemma monotone_start_le_end w this t :
  monotone w → timers w !! this = Some t → (start_ t ≤ end_ t)%Z.
Proof. intros Hw Ht. apply (Hw this t Ht). Qed.




(** * More of the code *)

(** ** The counter under a schedule *)

Lemma reachable_lock_inv v programs schedule :
  lock_inv (run schedule (boot (counter_at v) programs)).
Proof. apply run_lock_inv, lock_inv_boot. reflexivity. Qed.

Lemma tally_le f g l : (∀ t, f t ≤ g t) → tally f l ≤ tally g l.
Proof.
  intros Hfg. induction l as [|x l IH]; simpl; [lia|].
  specialize (Hfg x). lia.
Qed.

Lemma unprinted_le_one st : lock_inv st → tally unprinted (pool st) ≤ 1.
Proof.
  intros Hinv.
  pose proof (tally_le unprinted (λ t, Nat.b2n (writing t)) (pool st)) as Hle.
  pose proof (inv_writers _ Hinv) as Hw. unfold inside in Hw.
  pose proof (b2n_le_1 (shared_mutex.exclusive (mutex_ (counter st)))).
  assert (∀ t, unprinted t ≤ Nat.b2n (writing t)) as Hpt.
  { intros t. unfold unprinted, writing.
    destruct (todo t) as [|[] ?]; simpl; try lia.
    destruct (pc t) as [|[|[|[|]]]]; simpl; lia. }
  specialize (Hle Hpt). lia.
Qed.

Lemma writer_lines_app out1 out2 :
  writer_lines (out1 ++ out2) = writer_lines out1 ++ writer_lines out2.
Proof.
  induction out1 as [|[] out1 IH]; simpl; [reflexivity|exact IH|].
  rewrite IH. reflexivity.
Qed.

Lemma unprinted_idle t : pc t = 0 → unprinted t = 0.
Proof.
  unfold unprinted. intros ->. destruct (todo t) as [|[] ?]; reflexivity.
Qed.

Lemma owed_idle t : pc t = 0 → owed t = increments_in (todo t).
Proof.
  unfold owed. intros ->. destruct (todo t) as [|[] ?]; simpl; lia.
Qed.

Lemma step_log_inv v0 K i st st' :
  step i st = Some st' → lock_inv st →
  (∀ j t, pool st !! j = Some t → no_reset (todo t)) →
  log_inv v0 K st → log_inv v0 K st'.
Proof.
  intros Hstep Hinv Hnr [Howed Hlines Hval].
  pose proof (unprinted_le_one _ Hinv) as Hu1.
  destruct Hinv as [Hwf Hw Hr Hrw Htmp].
  destruct st as [[m v] out pl]. simpl in *.
  step_cases Hstep.
  all: try (exfalso; apply (Hnr _ _ Hi); simpl; by left).
  all: try (destruct (shared_mutex.lock_shared m) as [m'|];
            simpl in He; [|discriminate]).
  all: try (destruct (shared_mutex.lock m) as [m'|];
            simpl in He; [|discriminate]).
  all: injection He as <- <- <-.
  all: unfold advance; simpl.
  all: pose proof (tally_one unprinted _ _ _ Hi) as Hu0; unfold unprinted in Hu0 at 1;
       simpl in Hu0.
  all: match goal with
       | |- log_inv _ _ {| counter := _; cout := _; pool := <[_ := ?t']> _ |} =>
           pose proof (tally_insert owed _ _ _ t' Hi) as Ho;
           pose proof (tally_insert unprinted _ _ _ t' Hi) as Hu;
           try (rewrite (owed_idle t') in Ho by reflexivity);
           try (rewrite (unprinted_idle t') in Hu by reflexivity);
           first [unfold owed in Ho at 2 4 | unfold owed in Ho at 2];
           first [unfold unprinted in Hu at 2 4 | unfold unprinted in Hu at 2];
           simpl in Ho, Hu
       end.
  all: split; simpl; rewrite ?writer_lines_app; simpl; rewrite ?app_nil_r,
       ?length_app; simpl.
  all: try lia.
  all: try assumption.
  all: try (etransitivity; [|exact Hval]; f_equal; lia).
  - pose proof (Htmp _ _ Hi (conj eq_refl eq_refl)) as Ht. simpl in Ht.
    rewrite Ht, <- Hval. unfold Unsigned.wrap. rewrite modulus_eq.
    rewrite Z.add_mod_idemp_l by lia. f_equal. lia.
  - intros k v1 Hk. apply lookup_app_Some in Hk as [Hk|[Hlen Hk]].
    + exact (Hlines k v1 Hk).
    + destruct (k - length (writer_lines out)) as [|k'] eqn:Hkk;
        simpl in Hk; [|discriminate].
      injection Hk as <-. rewrite <- Hval.
      assert (tally unprinted pl = 1) as -> by lia.
      f_equal. lia.
Qed.

Lemma log_inv_boot v0 programs :
  Unsigned.in_range v0 →
  log_inv v0 (total_increments programs) (boot (counter_at v0) programs).
Proof.
  intros Hrange. split; simpl.
  - unfold total_increments.
    induction programs as [|p ps IH]; [reflexivity|].
    rewrite !fmap_cons. cbn [tally sum_list sum_list_with].
    rewrite owed_idle by reflexivity. simpl. rewrite IH. reflexivity.
  - intros k v Hk. discriminate Hk.
  - rewrite tally_spawn_zero by (intros p; apply unprinted_idle; reflexivity).
    rewrite !Z.add_0_r. apply wrap_small. exact Hrange.
Qed.

Lemma step_no_reset i st st' :
  step i st = Some st' →
  (∀ j t, pool st !! j = Some t → no_reset (todo t)) →
  (∀ j t, pool st' !! j = Some t → no_reset (todo t)).
Proof.
  intros Hstep Hnr j tj Hj.
  apply step_inv in Hstep as (t & o & s & c' & f' & out & Hi & Ho & Hs & He & ->).
  simpl in Hj.
  apply list_lookup_insert_Some in Hj as [(-> & <- & _)|(Hne & Hj)];
    [|exact (Hnr j tj Hj)].
  specialize (Hnr _ _ Hi). unfold advance.
  destruct (S (pc t) =? length (body o)); simpl; [|exact Hnr].
  destruct (todo t) as [|o' rest]; [exact Hnr|].
  eapply no_reset_tail. exact Hnr.
Qed.

Lemma run_no_reset schedule st :
  (∀ j t, pool st !! j = Some t → no_reset (todo t)) →
  (∀ j t, pool (run schedule st) !! j = Some t → no_reset (todo t)).
Proof.
  revert st. induction schedule as [|i schedule IH]; intros st Hnr;
    [exact Hnr|].
  simpl. apply IH. unfold sched_step.
  destruct (step i st) as [st'|] eqn:Hstep; simpl; [|exact Hnr].
  eapply step_no_reset; eassumption.
Qed.

Lemma boot_no_reset c programs :
  Forall no_reset programs →
  ∀ j t, pool (boot c programs) !! j = Some t → no_reset (todo t).
Proof.
  intros Hnr j t Hj. simpl in Hj.
  apply list_lookup_fmap_Some in Hj as (p & -> & Hp).
  simpl. eapply Forall_lookup_1; eassumption.
Qed.

Lemma run_log_inv v0 K schedule st :
  lock_inv st →
  (∀ j t, pool st !! j = Some t → no_reset (todo t)) →
  log_inv v0 K st → log_inv v0 K (run schedule st).
Proof.
  revert st. induction schedule as [|i schedule IH]; intros st Hl Hnr Hlog;
    [exact Hlog|].
  simpl. unfold sched_step.
  destruct (step i st) as [st'|] eqn:Hstep; simpl; [|by apply IH].
  apply IH.
  - eapply step_lock_inv; eassumption.
  - eapply step_no_reset; eassumption.
  - eapply step_log_inv; eassumption.
Qed.

(** X9.  The log of the writers.  With no [reset()] in any program, under
    every schedule the lines of [increment()] reach [std::cout] in the
    order of the values: counted from 0, line [k] shows the start value
    plus [k + 1], modulo [2^32]; and once all threads have returned there
    are as many such lines as [increment()] calls. *)
Theorem writer_lines_in_order v0 programs schedule :
  Unsigned.in_range v0 →
  Forall no_reset programs →
  let st := run schedule (boot (counter_at v0) programs) in
  (∀ k v, writer_lines (cout st) !! k = Some v →
          v = Unsigned.wrap (v0 + Z.of_nat k + 1))
  ∧ (finished st →
     length (writer_lines (cout st)) = total_increments programs).
Proof.
  intros Hrange Hnr st.
  assert (log_inv v0 (total_increments programs) st) as [Howed Hlines _].
  { apply run_log_inv.
    - apply lock_inv_boot. reflexivity.
    - apply boot_no_reset. exact Hnr.
    - apply log_inv_boot. exact Hrange. }
  split; [exact Hlines|].
  intros Hfin. rewrite (tally_finished owed) in Howed; [lia| |exact Hfin].
  intros t Ht. unfold owed. rewrite Ht. reflexivity.
Qed.

Lemma writer_lines_in_order_witness :
  let programs := [[OpIncrement; OpGet]; [OpIncrement; OpIncrement]; [OpGet]] in
  let schedule := mjoin (replicate 30 [0; 1; 2]) in
  Unsigned.in_range 0
  ∧ Forall no_reset programs
  ∧ finished (run schedule (boot (counter_at 0) programs))
  ∧ writer_lines (cout (run schedule (boot (counter_at 0) programs)))
    = [1; 2; 3]%Z
  ∧ length (writer_lines (cout (run schedule (boot (counter_at 0) programs))))
    = total_increments programs.
Proof.
  intros programs schedule.
  assert (Unsigned.in_range 0) as Hrange
    by (vm_compute; split; [discriminate | reflexivity]).
  assert (Forall no_reset programs) as Hnr
    by (apply (bool_decide_unpack _); vm_compute; exact I).
  assert (finished (run schedule (boot (counter_at 0) programs))) as Hfin
    by (apply (bool_decide_unpack _); vm_compute; exact I).
  split; [exact Hrange|]. split; [exact Hnr|]. split; [exact Hfin|].
  split; [reflexivity|].
  exact (proj2 (writer_lines_in_order 0 programs schedule Hrange Hnr) Hfin).
Defined.


Lemma ascending_nil : ascending [].
Proof. intros a b x y _ Ha. discriminate Ha. Qed.

Lemma ascending_snoc l v :
  ascending l → Forall (λ x, x ≤ v)%Z l → ascending (l ++ [v]).
Proof.
  intros Hl Hv a b x y Hab Ha Hb.
  apply lookup_app_Some in Hb as [Hb|[Hlen Hb]].
  - apply lookup_app_Some in Ha as [Ha|[Hlen' _]].
    + exact (Hl a b x y Hab Ha Hb).
    + apply lookup_lt_Some in Hb. lia.
  - destruct (b - length l) as [|n]; simpl in Hb; [|discriminate].
    injection Hb as <-.
    apply lookup_app_Some in Ha as [Ha|[Hlen' Ha]].
    + eapply (proj1 (Forall_lookup _ _) Hv). exact Ha.
    + destruct (a - length l) as [|n]; simpl in Ha; [|discriminate].
      injection Ha as <-. lia.
Qed.

Lemma Forall_le_mono (l : list Z) v v' :
  (v ≤ v')%Z → Forall (λ x, x ≤ v)%Z l → Forall (λ x, x ≤ v')%Z l.
Proof. intros Hv Hl. eapply Forall_impl; [exact Hl|]. intros x Hx. simpl in *. lia. Qed.

Lemma step_growth_inv K i st st' :
  (K < Unsigned.modulus)%Z →
  step i st = Some st' → lock_inv st → reader_inv st →
  (∀ j t, pool st !! j = Some t → no_reset (todo t)) →
  growth_inv K st → growth_inv K st'.
Proof.
  intros HK Hstep Hinv Hrd Hnr [H0 Htot Hret Hres].
  destruct Hinv as [Hwf Hw Hr Hrw Htmp].
  destruct st as [[m v] out pl]. unfold reader_inv in Hrd. simpl in *.
  step_cases Hstep.
  all: try (exfalso; apply (Hnr _ _ Hi); simpl; by left).
  all: try (destruct (shared_mutex.lock_shared m) as [m'|];
            simpl in He; [|discriminate]).
  all: try (destruct (shared_mutex.lock m) as [m'|];
            simpl in He; [|discriminate]).
  all: injection He as <- <- <-.
  all: unfold advance; simpl.
  all: pose proof (tally_one pending _ _ _ Hi) as Hp1;
       unfold pending in Hp1 at 1; unfold stored in Hp1; simpl in Hp1.
  all: match goal with
       | |- growth_inv _ {| counter := _; cout := _; pool := <[_ := ?t']> _ |} =>
           pose proof (tally_insert pending _ _ _ t' Hi) as Hp;
           unfold pending in Hp at 2 4;
           try (rewrite (stored_idle t') in Hp by reflexivity);
           unfold stored in Hp; simpl in Hp
       end.
  all: try (pose proof (Htmp _ _ Hi (conj eq_refl eq_refl)) as Ht; simpl in Ht;
            rewrite Ht;
            assert (Unsigned.wrap (v + 1) = v + 1)%Z as ->
              by (apply wrap_small; unfold Unsigned.in_range; lia)).
  all: split; simpl; rewrite ?fmap_app, ?app_nil_r; simpl.
  all: try lia.
  all: try (intros j tj Hj Hne0;
            apply list_lookup_insert_Some in Hj as [(-> & <- & _)|(Hne & Hj)];
            [ simpl in *;
              first [ congruence
                    | by split
                    | apply (Hret _ _ Hi) in Hne0; destruct Hne0 as [Hh Hpc];
                      simpl in Hh, Hpc; congruence ]
            | exact (Hret j tj Hj Hne0) ]).
  all: intros j tj Hj;
       apply list_lookup_insert_Some in Hj as [(-> & <- & _)|(Hne & Hj)];
       [ destruct (Hres _ _ Hi) as [Ha Hf]; simpl in Ha, Hf; simpl
       | destruct (Hres j tj Hj) as [Ha Hf]; split;
         [ exact Ha | eapply Forall_le_mono; [|exact Hf]; lia ] ].
  all: try (split; [ exact Ha | eapply Forall_le_mono; [|exact Hf]; lia ]).
  all: try (pose proof (Hrd _ _ Hi (conj eq_refl eq_refl)) as Hrv0;
            simpl in Hrv0; rewrite Hrv0; simpl; split;
            [ apply ascending_snoc; assumption
            | apply Forall_app; split;
              [ assumption | constructor; [lia | constructor] ] ]).
  all: destruct (retval locals0) eqn:Hrv;
       [ exfalso; destruct (Hret _ _ Hi) as [Hh Hpc];
         [ simpl; congruence | simpl in Hh, Hpc; congruence ]
       | simpl; rewrite app_nil_r; split;
         [ exact Ha | eapply Forall_le_mono; [|exact Hf]; lia ] ].
Qed.


Lemma growth_inv_boot v0 programs :
  (0 ≤ v0)%Z →
  growth_inv (v0 + Z.of_nat (total_increments programs))
    (boot (counter_at v0) programs).
Proof.
  intros H0. split; simpl.
  - exact H0.
  - rewrite tally_pending_spawn. reflexivity.
  - intros i t Hi. apply list_lookup_fmap_Some in Hi as (p & -> & _).
    simpl. congruence.
  - intros i t Hi. apply list_lookup_fmap_Some in Hi as (p & -> & _).
    simpl. split; [apply ascending_nil | constructor].
Qed.

Lemma run_growth_inv K schedule st :
  (K < Unsigned.modulus)%Z →
  lock_inv st → reader_inv st →
  (∀ j t, pool st !! j = Some t → no_reset (todo t)) →
  growth_inv K st → growth_inv K (run schedule st).
Proof.
  intros HK. revert st.
  induction schedule as [|i schedule IH]; intros st Hl Hrd Hnr Hg;
    [exact Hg|].
  simpl. unfold sched_step.
  destruct (step i st) as [st'|] eqn:Hstep; simpl; [|by apply IH].
  apply IH.
  - eapply step_lock_inv; eassumption.
  - eapply step_reader_inv; eassumption.
  - eapply step_no_reset; eassumption.
  - eapply step_growth_inv; eassumption.
Qed.

(** X10.  What a reader is handed.  While the counter cannot wrap (the
    start value plus all the [increment()] calls stays below [2^32]) and
    nobody resets, under every schedule the values a thread was handed by
    its successive [get()] calls never go down and none exceeds the value
    the counter holds, which stays between the start value and the start
    value plus the number of [increment()] calls. *)
Theorem reads_never_go_down v0 programs schedule :
  (0 ≤ v0)%Z →
  (v0 + Z.of_nat (total_increments programs) < Unsigned.modulus)%Z →
  Forall no_reset programs →
  let st := run schedule (boot (counter_at v0) programs) in
  (∀ i t, pool st !! i = Some t →
          ascending (results t)
          ∧ Forall (λ x, x ≤ value_ (counter st))%Z (results t))
  ∧ (v0 ≤ value_ (counter st)
     ≤ v0 + Z.of_nat (total_increments programs))%Z.
Proof.
  intros H0 HK Hnr st.
  assert (growth_inv (v0 + Z.of_nat (total_increments programs)) st)
    as [Hv Htot _ Hres].
  { apply run_growth_inv; try assumption.
    - apply lock_inv_boot. reflexivity.
    - apply reader_inv_boot.
    - apply boot_no_reset. exact Hnr.
    - apply growth_inv_boot. exact H0. }
  split; [exact Hres|].
  assert (log_inv v0 (total_increments programs) st) as [Howed _ _].
  { apply run_log_inv.
    - apply lock_inv_boot. reflexivity.
    - apply boot_no_reset. exact Hnr.
    - apply log_inv_boot. unfold Unsigned.in_range. lia. }
  assert (tally pending (pool st) ≤ tally owed (pool st)) as Hpo.
  { apply tally_le. intros t. unfold pending, owed, stored.
    destruct (todo t) as [|[] ?]; simpl; try lia.
    destruct (pc t) as [|[|[|[|]]]]; simpl; lia. }
  lia.
Qed.

Lemma reads_never_go_down_witness :
  let programs := [[OpIncrement; OpGet]; [OpGet; OpGet; OpGet]; [OpIncrement]] in
  let schedule := mjoin (replicate 30 [0; 1; 2]) in
  let st := run schedule (boot (counter_at 5) programs) in
  (0 ≤ 5)%Z
  ∧ (5 + Z.of_nat (total_increments programs) < Unsigned.modulus)%Z
  ∧ Forall no_reset programs
  ∧ results <$> pool st = [[6]; [6; 6; 7]; []]%Z
  ∧ value_ (counter st) = 7%Z
  ∧ ∀ i t, pool st !! i = Some t →
           ascending (results t)
           ∧ Forall (λ x, x ≤ value_ (counter st))%Z (results t).
Proof.
  intros programs schedule st.
  assert (0 ≤ 5)%Z as H0 by lia.
  assert (5 + Z.of_nat (total_increments programs) < Unsigned.modulus)%Z
    as HK by (vm_compute; reflexivity).
  assert (Forall no_reset programs) as Hnr
    by (apply (bool_decide_unpack _); vm_compute; exact I).
  split; [exact H0|]. split; [exact HK|]. split; [exact Hnr|].
  split; [vm_compute; reflexivity|]. split; [vm_compute; reflexivity|].
  exact (proj1 (reads_never_go_down 5 programs schedule H0 HK Hnr)).
Defined.

(** X4.  Readers do not wait for readers.  In every state a schedule can
    reach, a thread about to call [get()] constructs its [shared_lock] at
    once when no thread is inside [increment()] or [reset()], however many
    are inside [get()], and is then one more thread inside [get()]; when
    a writer is inside it cannot move. *)
Theorem reader_admitted v programs schedule i t :
  let st := run schedule (boot (counter_at v) programs) in
  pool st !! i = Some t →
  about_to_call OpGet t →
  (inside writing (pool st) = 0 →
   ∃ st', step i st = Some st'
          ∧ inside reading (pool st') = S (inside reading (pool st))
          ∧ inside writing (pool st') = 0
          ∧ value_ (counter st') = value_ (counter st))
  ∧ (inside writing (pool st) = 1 → step i st = None).
Proof.
  intros st Hi [Hh Hpc].
  pose proof (reachable_lock_inv v programs schedule) as Hinv. fold st in Hinv.
  pose proof (inv_writers _ Hinv) as Hw.
  destruct t as [[|o rest] p f rs]; simpl in Hh, Hpc; [discriminate|].
  injection Hh as ->. subst p.
  unfold step. rewrite Hi. simpl.
  unfold shared_mutex.lock_shared.
  destruct (shared_mutex.exclusive (mutex_ (counter st))) eqn:He;
    simpl in Hw; rewrite Hw; (split; [|done]); [done|].
  intros _. eexists. split; [reflexivity|]. simpl. unfold advance. simpl.
  pose proof (tally_insert (λ x, Nat.b2n (reading x)) _ _ _
                {| todo := OpGet :: rest; pc := 1; locals := f; results := rs |}
                Hi) as H1.
  pose proof (tally_insert (λ x, Nat.b2n (writing x)) _ _ _
                {| todo := OpGet :: rest; pc := 1; locals := f; results := rs |}
                Hi) as H2.
  unfold inside. simpl in H1, H2. unfold inside in Hw. lia.
Qed.

Lemma reader_admitted_witness :
  let st := run [0; 1; 1; 1; 1; 2; 2]
              (boot (counter_at 0) [[OpGet]; [OpIncrement]; [OpGet]; [OpGet]]) in
  inside reading (pool st) = 2
  ∧ pool st !! 3 = Some (spawn [OpGet])
  ∧ about_to_call OpGet (spawn [OpGet])
  ∧ inside writing (pool st) = 0
  ∧ ∃ st', step 3 st = Some st' ∧ inside reading (pool st') = 3.
Proof.
  intros st.
  assert (pool st !! 3 = Some (spawn [OpGet])) as Hi by reflexivity.
  assert (about_to_call OpGet (spawn [OpGet])) as Ha by (split; reflexivity).
  assert (inside writing (pool st) = 0) as Hw by reflexivity.
  split; [reflexivity|]. split; [exact Hi|]. split; [exact Ha|].
  split; [exact Hw|].
  destruct (proj1 (reader_admitted 0 _ _ 3 _ Hi Ha) Hw)
    as (st' & Hstep & Hr & _).
  exists st'. split; [exact Hstep | exact Hr].
Defined.

(** X5.  Writers wait for everybody.  In every state a schedule can reach,
    a thread about to call [increment()] or [reset()] constructs its
    [unique_lock] exactly when no thread is inside any method; it is then
    the one thread inside a writer body.  While any thread is inside
    [get()], [increment()] or [reset()] it cannot move, and the counter
    is not written. *)
Theorem writer_admitted v programs schedule i t o :
  let st := run schedule (boot (counter_at v) programs) in
  pool st !! i = Some t →
  about_to_call o t → o ≠ OpGet →
  (inside writing (pool st) + inside reading (pool st) = 0 →
   ∃ st', step i st = Some st'
          ∧ inside writing (pool st') = 1
          ∧ inside reading (pool st') = 0
          ∧ value_ (counter st') = value_ (counter st))
  ∧ (0 < inside writing (pool st) + inside reading (pool st) →
     step i st = None ∧ sched_step st i = st).
Proof.
  intros st Hi [Hh Hpc] Ho.
  pose proof (reachable_lock_inv v programs schedule) as Hinv. fold st in Hinv.
  pose proof (inv_writers _ Hinv) as Hw.
  pose proof (inv_readers _ Hinv) as Hr.
  destruct t as [[|o' rest] p f rs]; simpl in Hh, Hpc; [discriminate|].
  injection Hh as ->. subst p.
  destruct o; [done| |].
  all: unfold sched_step, step; rewrite Hi; simpl.
  all: unfold shared_mutex.lock.
  all: destruct (shared_mutex.exclusive (mutex_ (counter st))) eqn:He;
       simpl in Hw; rewrite Hw, Hr; simpl; [split; [lia|done]|].
  all: destruct (shared_mutex.shared (mutex_ (counter st))) as [|n] eqn:Hs;
       simpl; [|split; [lia|done]].
  all: split; [|lia].
  all: intros _; eexists; (split; [reflexivity|]); simpl.
  all: unfold advance; simpl.
  all: match goal with
       | |- context [<[_ := ?t']> _] =>
           pose proof (tally_insert (λ x, Nat.b2n (reading x)) _ _ _ t' Hi) as H1;
           pose proof (tally_insert (λ x, Nat.b2n (writing x)) _ _ _ t' Hi) as H2
       end.
  all: unfold inside in *; simpl in H1, H2; lia.
Qed.

Lemma writer_admitted_witness :
  let st := run [0]
              (boot (counter_at 0) [[OpGet]; [OpReset]]) in
  pool st !! 1 = Some (spawn [OpReset])
  ∧ about_to_call OpReset (spawn [OpReset])
  ∧ OpReset ≠ OpGet
  ∧ 0 < inside writing (pool st) + inside reading (pool st)
  ∧ step 1 st = None.
Proof.
  intros st.
  assert (pool st !! 1 = Some (spawn [OpReset])) as Hi by reflexivity.
  assert (about_to_call OpReset (spawn [OpReset])) as Ha by (split; reflexivity).
  assert (OpReset ≠ OpGet) as Ho by discriminate.
  assert (0 < inside writing (pool st) + inside reading (pool st)) as Hin
    by (vm_compute; lia).
  split; [exact Hi|]. split; [exact Ha|]. split; [exact Ho|].
  split; [exact Hin|].
  exact (proj1 (proj2 (writer_admitted 0 _ _ 1 _ _ Hi Ha Ho) Hin)).
Defined.

Lemma readers_exclude_writers_witness :
  let st := run [0; 1; 0; 1]
              (boot (counter_at 0) [[OpIncrement]; [OpGet]]) in
  inside writing (pool st) = 1 ∧ inside reading (pool st) = 0.
Proof.
  intros st. assert (inside writing (pool st) = 1) as Hw by reflexivity.
  split; [exact Hw|].
  exact (readers_exclude_writers 0 [[OpIncrement]; [OpGet]] [0; 1; 0; 1] Hw).
Defined.

Lemma get_returns_current_witness :
  let programs := [[OpGet; OpGet]; [OpIncrement]] in
  let schedule := [0; 0; 0; 0; 1; 1; 1; 1; 1; 0; 0; 0] in
  let st := run schedule (boot (counter_at 8) programs) in
  let t := {| todo := [OpGet]; pc := 3;
              locals := {| tmp := 0; retval := Some 9%Z |};
              results := [8%Z] |} in
  pool st !! 0 = Some t
  ∧ todo t = [OpGet]
  ∧ pc t = 3
  ∧ ∃ st' t', step 0 st = Some st'
              ∧ pool st' !! 0 = Some t'
              ∧ results t' = [8; 9]%Z
              ∧ value_ (counter st') = 9%Z.
Proof.
  intros programs schedule st t.
  assert (pool st !! 0 = Some t) as Hi by reflexivity.
  split; [exact Hi|]. split; [reflexivity|]. split; [reflexivity|].
  destruct (get_returns_current 8 programs schedule 0 t [] Hi eq_refl eq_refl)
    as (st' & t' & Hstep & Hi' & _ & Hres & Hv).
  exists st', t'. split; [exact Hstep|]. split; [exact Hi'|].
  split; [exact Hres | exact Hv].
Defined.

(** X3.  [++value_] is one step for everybody else.  In every state a
    schedule can reach, a thread that has read [value_] for its
    [++value_] and not yet written can write, and what it writes is the
    successor, modulo [2^32], of what the counter holds at that instant:
    no other thread wrote in between. *)
Theorem increment_store_is_atomic v programs schedule i t :
  let st := run schedule (boot (counter_at v) programs) in
  pool st !! i = Some t →
  about_to_store t →
  ∃ st', step i st = Some st'
         ∧ value_ (counter st') = Unsigned.wrap (value_ (counter st) + 1).
Proof.
  intros st Hi Hab.
  pose proof (reachable_lock_inv v programs schedule) as Hinv. fold st in Hinv.
  destruct (inside_thread_steps st i t Hinv Hi) as [st' Hstep].
  { destruct Hab as [_ ->]. lia. }
  exists st'. split; [exact Hstep|].
  eapply store_adds_one; eassumption.
Qed.

Lemma increment_store_is_atomic_witness :
  let programs := [[OpIncrement]; [OpIncrement]; [OpGet]] in
  let schedule := [0; 1; 2; 0; 1; 2] in
  let st := run schedule (boot (counter_at 41) programs) in
  let t := {| todo := [OpIncrement]; pc := 2;
              locals := {| tmp := 41; retval := None |}; results := [] |} in
  pool st !! 0 = Some t
  ∧ about_to_store t
  ∧ ∃ st', step 0 st = Some st' ∧ value_ (counter st') = 42%Z.
Proof.
  intros programs schedule st t.
  assert (pool st !! 0 = Some t) as Hi by reflexivity.
  assert (about_to_store t) as Hab by (split; reflexivity).
  split; [exact Hi|]. split; [exact Hab|].
  destruct (increment_store_is_atomic 41 programs schedule 0 t Hi Hab)
    as (st' & Hstep & Hv).
  exists st'. split; [exact Hstep | exact Hv].
Defined.

(** X6.  No deadlock.  In every state a schedule can reach, as long as
    some thread has a call to make or to finish, some thread can take
    its next action. *)
Theorem no_deadlock v programs schedule :
  let st := run schedule (boot (counter_at v) programs) in
  ¬ finished st → ∃ i st', step i st = Some st'.
Proof.
  intros st Hnot.
  destruct (deadlock_free st (reachable_lock_inv v programs schedule) Hnot)
    as (i & st' & Hstep).
  exists i, st'. exact Hstep.
Qed.

Lemma no_deadlock_witness :
  let programs := [[OpIncrement]; [OpReset]; [OpGet]] in
  let schedule := [0; 1; 2; 1; 2] in
  let st := run schedule (boot (counter_at 0) programs) in
  ¬ finished st
  ∧ step 1 st = None ∧ step 2 st = None
  ∧ ∃ i st', step i st = Some st'.
Proof.
  intros programs schedule st.
  assert (¬ finished st) as Hnot
    by (apply (bool_decide_unpack _); vm_compute; exact I).
  split; [exact Hnot|]. split; [reflexivity|]. split; [reflexivity|].
  exact (no_deadlock 0 programs schedule Hnot).
Defined.

Lemma every_workload_finishes_witness :
  let programs := [[OpIncrement; OpGet]; [OpReset]; [OpGet; OpIncrement]] in
  at_rest (counter_at 3)
  ∧ one_by_one 0 programs = [0; 0; 0; 0; 0; 0; 0; 0; 0; 1; 1; 1;
                             2; 2; 2; 2; 2; 2; 2; 2; 2]
  ∧ finished (run (one_by_one 0 programs) (boot (counter_at 3) programs)).
Proof.
  intros programs.
  assert (at_rest (counter_at 3)) as Hrest by reflexivity.
  split; [exact Hrest|]. split; [reflexivity|].
  exact (every_workload_finishes (counter_at 3) programs Hrest).
Defined.

(** X8.  The workload of [main].  [r] threads of [g] calls of [get()] and
    [w] threads of [k] calls of [increment()] (32 of 10000 and 3 of 1000
    in [main]) on a counter that holds 0, with [w * k < 2^32]: under every
    schedule, once all the threads are joined the counter is at rest and
    holds [w * k], whatever the readers did. *)
Theorem workload_counts r g w k schedule :
  (Z.of_nat (w * k) < Unsigned.modulus)%Z →
  let programs :=
    replicate r (replicate g OpGet) ++ replicate w (replicate k OpIncrement) in
  finished (run schedule (boot (counter_at 0) programs)) →
  counter (run schedule (boot (counter_at 0) programs))
  = counter_at (Z.of_nat (w * k)).
Proof.
  intros Hwk programs Hfin.
  rewrite final_counter; try assumption.
  - unfold programs. rewrite total_increments_workload. simpl.
    rewrite wrap_small; [reflexivity|]. unfold Unsigned.in_range. lia.
  - reflexivity.
  - unfold Unsigned.in_range. rewrite modulus_eq. simpl. lia.
  - apply no_reset_workload.
Qed.

Lemma workload_counts_witness :
  let programs :=
    replicate 2 (replicate 3 OpGet) ++ replicate 3 (replicate 2 OpIncrement) in
  let schedule := mjoin (replicate 40 [0; 2; 1; 4; 3]) in
  (Z.of_nat (3 * 2) < Unsigned.modulus)%Z
  ∧ finished (run schedule (boot (counter_at 0) programs))
  ∧ counter (run schedule (boot (counter_at 0) programs)) = counter_at 6.
Proof.
  intros programs schedule.
  assert (Z.of_nat (3 * 2) < Unsigned.modulus)%Z as Hwk
    by (vm_compute; reflexivity).
  assert (finished (run schedule (boot (counter_at 0) programs))) as Hfin
    by (apply (bool_decide_unpack _); vm_compute; exact I).
  split; [exact Hwk|]. split; [exact Hfin|].
  exact (workload_counts 2 3 3 2 schedule Hwk Hfin).
Defined.

(** ** The timer *)

Lemma bind_Some {A B} (m : M A) (k : A → M B) w a w1 :
  m w = Some (a, w1) → (m ≫= k) w = k a w1.
Proof. intros Hm. unfold mbind, M_bind. rewrite Hm. reflexivity. Qed.

Lemma bind_None {A B} (m : M A) (k : A → M B) w :
  m w = None → (m ≫= k) w = None.
Proof. intros Hm. unfold mbind, M_bind. rewrite Hm. reflexivity. Qed.

Lemma toc_dangling this w : timers w !! this = None → toc this w = None.
Proof.
  intros Ht. unfold toc, set_end, now, load, mbind, M_bind. simpl.
  rewrite Ht. reflexivity.
Qed.

Lemma tic_dangling this w : timers w !! this = None → tic this w = None.
Proof.
  intros Ht. unfold tic, set_end, now, load, mbind, M_bind. simpl.
  rewrite Ht. reflexivity.
Qed.

(** X11.  A measure.  Whatever a live timer held before, [tic()], then [d]
    periods of the clock, then [toc()] leave [start_] at the reading of
    the clock at the [tic()] and [end_] exactly [d] later: what
    [get_duration()] then returns is [d] converted, nothing of the
    previous measure is left, and every other timer is as it was. *)
Theorem tic_toc_measures C T this w t d :
  timers w !! this = Some t →
  ∃ w', (tic this;; elapse d;; toc this) w = Some (this, w')
        ∧ timers w' = <[this := {| start_ := clock_reading w;
                                   end_ := clock_reading w + Z.of_N d |}]>
                        (timers w)
        ∧ clock_reading w' = (clock_reading w + Z.of_N d)%Z
        ∧ ostream w' = ostream w
        ∧ get_duration C T this w'
          = Some (chrono.duration_cast (chrono.clock_period C) T (Z.of_N d), w').
Proof.
  intros Ht.
  rewrite (bind_Some _ _ _ _ _ (tic_spec _ _ _ Ht)).
  rewrite (bind_Some (elapse d) _ _ _ _ eq_refl).
  rewrite (toc_spec this _ {| start_ := clock_reading w;
                              end_ := clock_reading w |})
    by (simpl; apply lookup_insert_eq).
  simpl. eexists. split; [reflexivity|]. simpl.
  rewrite insert_insert_eq. repeat split.
  rewrite (get_duration_spec C T this _
             {| start_ := clock_reading w;
                end_ := clock_reading w + Z.of_N d |})
    by (simpl; apply lookup_insert_eq).
  simpl. do 3 f_equal. lia.
Qed.

Lemma tic_toc_measures_witness :
  let w := {| clock_reading := 500;
              timers := {[ 0 := {| start_ := 3; end_ := 90 |} ]};
              ostream := [] |} in
  timers w !! 0 = Some {| start_ := 3; end_ := 90 |}
  ∧ ∃ w', (tic 0;; elapse 7300000;; toc 0) w = Some (0, w')
          ∧ get_duration chrono.steady_clock chrono.milliseconds 0 w'
            = Some (chrono.int_count 7, w').
Proof.
  intros w.
  assert (timers w !! 0 = Some {| start_ := 3; end_ := 90 |}) as Ht
    by reflexivity.
  split; [exact Ht|].
  destruct (tic_toc_measures chrono.steady_clock chrono.milliseconds
              0 w _ 7300000 Ht) as (w' & Hrun & _ & _ & _ & Hdur).
  exists w'. split; [exact Hrun | exact Hdur].
Defined.

(** X12.  [toc()] with no [tic()] since the construction measures from the
    construction. *)
Theorem toc_measures_since_construction C T this w d :
  ∃ w', (Timer_ctor this;; elapse d;; toc this) w = Some (this, w')
        ∧ timers w' !! this
          = Some {| start_ := clock_reading w;
                    end_ := clock_reading w + Z.of_N d |}
        ∧ get_duration C T this w'
          = Some (chrono.duration_cast (chrono.clock_period C) T (Z.of_N d), w').
Proof.
  rewrite (bind_Some _ _ _ _ _ (Timer_ctor_spec this w)).
  rewrite (bind_Some (elapse d) _ _ _ _ eq_refl).
  rewrite (toc_spec this _ {| start_ := clock_reading w;
                              end_ := clock_reading w |})
    by (simpl; apply lookup_insert_eq).
  simpl. eexists. split; [reflexivity|]. simpl.
  split; [apply lookup_insert_eq|].
  rewrite (get_duration_spec C T this _
             {| start_ := clock_reading w;
                end_ := clock_reading w + Z.of_N d |})
    by (simpl; apply lookup_insert_eq).
  simpl. do 3 f_equal. lia.
Qed.

(** X13.  Only the last [toc()] counts, and [tic()] forgets what came
    before.  A [toc()] followed, after any time, by another [toc()] is the
    same as the second alone; a [toc()] or a [tic()] followed, after any
    time, by a [tic()] is the same as that [tic()] alone.  On an address
    that holds no timer all of them fail alike. *)
Theorem last_call_counts this d w :
  (toc this;; elapse d;; toc this) w = (elapse d;; toc this) w
  ∧ (toc this;; elapse d;; tic this) w = (elapse d;; tic this) w
  ∧ (tic this;; elapse d;; tic this) w = (elapse d;; tic this) w.
Proof.
  unfold tic, toc, set_end, set_start, now, load, store, elapse.
  unfold mbind, M_bind, mret, M_ret. simpl.
  destruct (timers w !! this) as [t|] eqn:Ht; simpl; [|done].
  repeat (rewrite ?lookup_insert_eq; simpl).
  rewrite !insert_insert_eq. done.
Qed.

(** X14.  Timers are independent.  [tic()] and [toc()] on one timer, and the
    construction of one, leave every other timer, the clock and the
    output stream as they were. *)
Theorem other_timers_untouched this other w :
  this ≠ other →
  ∀ w', (∃ r, tic this w = Some (r, w'))
        ∨ (∃ r, toc this w = Some (r, w'))
        ∨ Timer_ctor this w = Some ((), w') →
        timers w' !! other = timers w !! other
        ∧ clock_reading w' = clock_reading w
        ∧ ostream w' = ostream w.
Proof.
  intros Hne w' H.
  destruct (timers w !! this) as [t|] eqn:Ht.
  - rewrite (tic_spec _ _ _ Ht), (toc_spec _ _ _ Ht), Timer_ctor_spec in H.
    destruct H as [[r [= _ <-]]|[[r [= _ <-]]|[= <-]]]; simpl;
      rewrite lookup_insert_ne by exact Hne; done.
  - rewrite tic_dangling, toc_dangling, Timer_ctor_spec in H by exact Ht.
    destruct H as [[r H]|[[r H]|[= <-]]]; try discriminate. simpl.
    rewrite lookup_insert_ne by exact Hne. done.
Qed.

Lemma other_timers_untouched_witness :
  let w := {| clock_reading := 500;
              timers := {[ 0 := {| start_ := 3; end_ := 90 |} ]}
                        ∪ {[ 1 := {| start_ := 4; end_ := 8 |} ]};
              ostream := [] |} in
  0 ≠ 1
  ∧ ∃ w', tic 0 w = Some (0, w')
          ∧ timers w' !! 0 = Some {| start_ := 500; end_ := 500 |}
          ∧ timers w' !! 1 = Some {| start_ := 4; end_ := 8 |}.
Proof.
  intros w. assert (0 ≠ 1) as Hne by discriminate.
  split; [exact Hne|].
  eexists. split; [reflexivity|]. split; [reflexivity|].
  refine (eq_trans (proj1 (other_timers_untouched 0 1 w Hne _
                             (or_introl (ex_intro _ 0 eq_refl)))) _).
  reflexivity.
Defined.

Lemma insertion_spec C T this w t :
  timers w !! this = Some t →
  insertion C T this w
  = Some ((), {| clock_reading := clock_reading w; timers := timers w;
                 ostream := ostream w
                   ++ [chrono.static_cast_double
                         (chrono.duration_cast (chrono.clock_period C) T
                            (end_ t - start_ t))] |}).
Proof.
  intros Ht. unfold insertion.
  rewrite (bind_Some _ _ _ _ _ (tics_spec C T _ _ _ Ht)). reflexivity.
Qed.

Lemma monotone_perform C T u w w' :
  monotone w → perform C T u w = Some ((), w') → monotone w'.
Proof.
  intros Hw Hu. destruct u as [this|this|this|this|d]; simpl in Hu.
  - eapply monotone_ctor; eassumption.
  - unfold mbind, M_bind in Hu.
    destruct (tic this w) as [[r w1]|] eqn:Htic; [|discriminate].
    injection Hu as <-. eapply monotone_tic; eassumption.
  - unfold mbind, M_bind in Hu.
    destruct (toc this w) as [[r w1]|] eqn:Htoc; [|discriminate].
    injection Hu as <-. eapply monotone_toc; eassumption.
  - destruct (timers w !! this) as [t|] eqn:Ht.
    + rewrite (insertion_spec _ _ _ _ _ Ht) in Hu. injection Hu as <-.
      exact Hw.
    + unfold insertion in Hu. rewrite bind_None in Hu; [discriminate|].
      apply (dangling this w C T Ht).
  - eapply monotone_elapse; eassumption.
Qed.

Lemma monotone_perform_all C T us : ∀ w w',
  monotone w → perform_all C T us w = Some ((), w') → monotone w'.
Proof.
  induction us as [|u us IH]; intros w w' Hw Hus; simpl in Hus.
  - injection Hus as <-. exact Hw.
  - unfold mbind, M_bind in Hus.
    destruct (perform C T u w) as [[[] w1]|] eqn:Hu; [|discriminate].
    eapply IH; [|exact Hus]. eapply monotone_perform; eassumption.
Qed.

(** A unit finer than the clock overflows.  A timer in picoseconds
    stopped [10^16] periods of the steady clock (115 days) after it was
    constructed counts a negative number: the product by 1000 does not
    fit 64 bits. *)
Example picoseconds_overflow :
  let w := {| clock_reading := 10000000000000000;
              timers := {[ 0 := {| start_ := 0; end_ := 10000000000000000 |} ]};
              ostream := [] |} in
  (Timer_ctor 0;; elapse 10000000000000000;; toc 0) (empty_world 0)
  = Some (0, w)
  ∧ get_duration chrono.steady_clock chrono.picoseconds 0 w
    = Some (chrono.int_count (-8446744073709551616), w).
Proof. split; [vm_compute; reflexivity | reflexivity]. Qed.

(** A unit narrower than the count of the clock overflows too: 25 days
    are more milliseconds than 32 bits hold. *)
Example milliseconds32_overflow :
  let w := {| clock_reading := 2160000000000000;
              timers := {[ 0 := {| start_ := 0; end_ := 2160000000000000 |} ]};
              ostream := [] |} in
  (Timer_ctor 0;; elapse 2160000000000000;; toc 0) (empty_world 0)
  = Some (0, w)
  ∧ get_duration chrono.steady_clock chrono.milliseconds32 0 w
    = Some (chrono.int_count (-2134967296), w).
Proof. split; [vm_compute; reflexivity | reflexivity]. Qed.

(** X15.  No negative time.  Start with no timer; construct timers, call
    [tic()] and [toc()] on them, print them and let time pass on a steady
    clock, in any order.  If no call was made on an address that holds no
    timer, then for every timer [start_ ≤ end_ ≤ now]; and as long as the
    conversion of what elapsed to an integral unit does not overflow (the
    product by the numerator of the quotient of the periods fits the
    common type, and the quotient fits the unit), what [get_duration()]
    counts is not negative. *)
Theorem elapsed_never_negative C T bits us reading w this t :
  chrono.rep_of T = chrono.integral bits →
  chrono.castable (chrono.clock_period C) T →
  perform_all C T us (empty_world reading) = Some ((), w) →
  timers w !! this = Some t →
  let cf := chrono.ratio_divide (chrono.clock_period C) (chrono.period T) in
  let elapsed := (end_ t - start_ t)%Z in
  chrono.fits (chrono.common_bits bits) (elapsed * chrono.num cf) →
  chrono.fits bits (elapsed * chrono.num cf ÷ chrono.den cf) →
  (start_ t ≤ end_ t ≤ clock_reading w)%Z
  ∧ ∃ n, get_duration C T this w = Some (chrono.int_count n, w) ∧ (0 ≤ n)%Z.
Proof.
  intros Hrep [Hnum Hden] Hus Ht cf elapsed Hp Hq.
  assert (monotone w) as Hw.
  { eapply monotone_perform_all; [|exact Hus]. apply monotone_empty. }
  destruct (Hw this t Ht) as [Hse Hen]. split; [lia|].
  rewrite (get_duration_spec _ _ _ _ _ Ht).
  rewrite (duration_cast_integral _ _ bits) by assumption.
  eexists. split; [reflexivity|].
  apply Z.quot_pos; [|lia]. apply Z.mul_nonneg_nonneg; lia.
Qed.

Lemma elapsed_never_negative_witness :
  let us := [use_ctor 0; use_wait 5; use_ctor 1; use_wait 2500000;
             use_toc 0; use_print 0; use_tic 1; use_wait 40; use_toc 0] in
  let t := {| start_ := 100; end_ := 2500145 |} in
  let w := {| clock_reading := 2500145;
              timers := {[ 0 := t ]}
                        ∪ {[ 1 := {| start_ := 2500105; end_ := 2500105 |} ]};
              ostream := [chrono.to_double 2] |} in
  let cf := chrono.ratio_divide (chrono.clock_period chrono.steady_clock)
              (chrono.period chrono.milliseconds) in
  chrono.rep_of chrono.milliseconds = chrono.integral 64
  ∧ chrono.castable (chrono.clock_period chrono.steady_clock) chrono.milliseconds
  ∧ perform_all chrono.steady_clock chrono.milliseconds us (empty_world 100)
    = Some ((), w)
  ∧ timers w !! 0 = Some t
  ∧ chrono.fits (chrono.common_bits 64) ((end_ t - start_ t) * chrono.num cf)
  ∧ chrono.fits 64 ((end_ t - start_ t) * chrono.num cf ÷ chrono.den cf)
  ∧ ∃ n, get_duration chrono.steady_clock chrono.milliseconds 0 w
         = Some (chrono.int_count n, w) ∧ (0 ≤ n)%Z.
Proof.
  intros us t w cf.
  assert (chrono.castable (chrono.clock_period chrono.steady_clock)
            chrono.milliseconds) as Hcf by (vm_compute; done).
  assert (perform_all chrono.steady_clock chrono.milliseconds us
            (empty_world 100) = Some ((), w)) as Hus by (vm_compute; reflexivity).
  assert (timers w !! 0 = Some t) as Ht by reflexivity.
  assert (chrono.fits (chrono.common_bits 64)
            ((end_ t - start_ t) * chrono.num cf)) as Hp by evaluated.
  assert (chrono.fits 64 ((end_ t - start_ t) * chrono.num cf ÷ chrono.den cf))
    as Hq by evaluated.
  split; [reflexivity|]. split; [exact Hcf|]. split; [exact Hus|].
  split; [exact Ht|]. split; [exact Hp|]. split; [exact Hq|].
  exact (proj2 (elapsed_never_negative chrono.steady_clock chrono.milliseconds
                  64 us 100 w 0 t eq_refl Hcf Hus Ht Hp Hq)).
Defined.

Lemma cast_ns_ms n :
  chrono.duration_cast (chrono.clock_period chrono.steady_clock)
    chrono.milliseconds n
  = chrono.int_count (n ÷ 1000000).
Proof. reflexivity. Qed.

Lemma slept_ms ms late :
  (0 ≤ ms)%Z →
  (Z.of_N (Z.to_N (ms * 1000000) + late) ÷ 1000000
   = ms + Z.of_N late / 1000000)%Z.
Proof.
  intros Hms. rewrite N2Z.inj_add, Z2N.id by lia.
  rewrite Z.quot_div_nonneg by lia. apply Z.div_add_l. lia.
Qed.

(** One iteration of the loop of [main]: the line printed is the sleep
    asked for plus the whole milliseconds the thread was kept longer. *)
Lemma timed_iteration t late w x :
  timers w !! t = Some x →
  (tic t;; sleep_for 10 late;; toc t;; print_time t) w
  = Some ((), {| clock_reading :=
                   clock_reading w + Z.of_N (Z.to_N (10 * 1000000) + late);
                 timers :=
                   <[t := {| start_ := clock_reading w;
                             end_ := clock_reading w
                                     + Z.of_N (Z.to_N (10 * 1000000) + late) |}]>
                     (timers w);
                 ostream :=
                   ostream w
                   ++ [chrono.to_double (10 + Z.of_N late / 1000000)] |}).
Proof.
  intros Hx. rewrite <- (slept_ms 10 late) by lia.
  unfold print_time, sleep_for.
  erewrite (bind_Some (tic t)); [|eapply tic_spec; exact Hx].
  erewrite (bind_Some (elapse _)); [|reflexivity].
  erewrite (bind_Some (toc t));
    [|eapply toc_spec; simpl; apply lookup_insert_eq].
  erewrite insertion_spec; [|simpl; apply lookup_insert_eq].
  cbn [clock_reading timers ostream start_ end_].
  rewrite !insert_insert_eq, cast_ns_ms.
  cbn [chrono.static_cast_double]. do 7 f_equal. lia.
Qed.

Lemma timed_loop_spec t late n : ∀ i w x,
  timers w !! t = Some x →
  ∃ w', timed_loop t late i n w = Some ((), w')
        ∧ ostream w'
          = ostream w
            ++ ((λ j, chrono.to_double (10 + Z.of_N (late j) / 1000000))
                  <$> seq i n).
Proof.
  induction n as [|n IH]; intros i w x Hx.
  - exists w. split; [reflexivity|]. simpl. rewrite app_nil_r. reflexivity.
  - pose proof (timed_iteration t (late i) w x Hx) as Hit.
    unfold mbind, M_bind in Hit.
    simpl timed_loop. unfold mbind, M_bind.
    destruct (tic t w) as [[r1 w1]|]; [|discriminate].
    destruct (sleep_for 10 (late i) w1) as [[r2 w2]|]; [|discriminate].
    destruct (toc t w2) as [[r3 w3]|]; [|discriminate].
    rewrite Hit.
    match goal with
    | |- context [timed_loop _ _ _ _ ?W] =>
        destruct (IH (S i) W
                    {| start_ := clock_reading w;
                       end_ := clock_reading w
                               + Z.of_N (Z.to_N (10 * 1000000) + late i) |})
          as (w' & Hloop & Hout); [simpl; apply lookup_insert_eq|]
    end.
    exists w'. split; [exact Hloop|].
    rewrite Hout. simpl. rewrite <- app_assoc. reflexivity.
Qed.

(** X17.  What [main] prints about time.  Whatever the clock reads and
    however much longer than asked each sleep lasts, the timer part of
    [main] prints 101 values: first 1232 plus the whole milliseconds the
    first sleep was late, then for each of the 100 iterations 10 plus the
    whole milliseconds of its own sleep's lateness.  Each value is at
    least the sleep asked for, and nothing is carried from an iteration to
    the next. *)
Theorem main_timer_prints t late0 late w :
  ∃ w', main_timer t late0 late w = Some ((), w')
        ∧ ostream w'
          = ostream w
            ++ (chrono.to_double
                  <$> ((1232 + Z.of_N late0 / 1000000)%Z
                       :: ((λ j, (10 + Z.of_N (late j) / 1000000)%Z)
                             <$> seq 0 100)))
        ∧ length (ostream w') = length (ostream w) + 101.
Proof.
  assert (∃ w1 x,
            (Timer_ctor t;; sleep_for 1232 late0;; toc t;; print_time t) w
            = Some ((), w1)
            ∧ timers w1 !! t = Some x
            ∧ ostream w1
              = ostream w
                ++ [chrono.to_double (1232 + Z.of_N late0 / 1000000)])
    as (w1 & x & Hfirst & Hx & Hout1).
  { rewrite <- (slept_ms 1232 late0) by lia.
    unfold print_time, sleep_for.
    erewrite (bind_Some (Timer_ctor t)); [|apply Timer_ctor_spec].
    erewrite (bind_Some (elapse _)); [|reflexivity].
    erewrite (bind_Some (toc t));
      [|eapply toc_spec; simpl; apply lookup_insert_eq].
    erewrite insertion_spec; [|simpl; apply lookup_insert_eq].
    cbn [clock_reading timers ostream start_ end_].
    rewrite cast_ns_ms. cbn [chrono.static_cast_double].
    eexists _, _. split; [reflexivity|].
    cbn [clock_reading timers ostream].
    split; [apply lookup_insert_eq|]. do 4 f_equal. lia. }
  destruct (timed_loop_spec t late 100 0 w1 x Hx) as (w' & Hloop & Hout).
  exists w'.
  assert (main_timer t late0 late w = Some ((), w')) as Hmain.
  { unfold main_timer. unfold mbind, M_bind in *.
    destruct (Timer_ctor t w) as [[r1 w2]|]; [|discriminate].
    destruct (sleep_for 1232 late0 w2) as [[r2 w3]|]; [|discriminate].
    destruct (toc t w3) as [[r3 w4]|]; [|discriminate].
    rewrite Hfirst. exact Hloop. }
  split; [exact Hmain|].
  assert (ostream w'
          = ostream w
            ++ (chrono.to_double
                  <$> ((1232 + Z.of_N late0 / 1000000)%Z
                       :: ((λ j, (10 + Z.of_N (late j) / 1000000)%Z)
                             <$> seq 0 100)))) as Hall.
  { rewrite Hout, Hout1, <- app_assoc, fmap_cons, <- list_fmap_compose.
    reflexivity. }
  split; [exact Hall|].
  rewrite Hall, length_app, length_fmap, length_cons, length_fmap, length_seq.
  reflexivity.
Qed.

(** Each value [main] prints is at least the sleep it follows. *)
Lemma main_timer_at_least late0 late (k : nat) (n : Z) :
  ((1232 + Z.of_N late0 / 1000000)%Z
   :: ((λ j, (10 + Z.of_N (late j) / 1000000)%Z) <$> seq 0 100)) !! k
  = Some n →
  if (k =? 0)%nat then (1232 ≤ n)%Z else (10 ≤ n)%Z.
Proof.
  assert (∀ x : N, 0 ≤ Z.of_N x / 1000000)%Z as Hpos
    by (intros x; apply Z.div_pos; lia).
  remember ((λ j, (10 + Z.of_N (late j) / 1000000)%Z) <$> seq 0 100)
    as l eqn:Hl.
  destruct k as [|k]; simpl.
  - intros [= <-]. specialize (Hpos late0). lia.
  - intros Hk. subst l. apply list_lookup_fmap_Some in Hk as (j & -> & _).
    specialize (Hpos (late j)). lia.
Qed.

(** X16.  Truncation loses less than one unit.  As long as the conversion
    to an integral unit [T] does not overflow (the product of the elapsed
    count by the numerator of the quotient of the periods fits the common
    type, and the quotient fits [T]): when at least [slept] whole units of
    [T] lie between [start_] and [end_], [get_duration()] counts at least
    [slept].  The first measure of [main], a timer of milliseconds stopped
    after a sleep of 1232 ms, reports at least 1232. *)
Theorem elapsed_at_least C T bits this w t (slept : Z) :
  chrono.rep_of T = chrono.integral bits →
  chrono.castable (chrono.clock_period C) T →
  timers w !! this = Some t →
  let cf := chrono.ratio_divide (chrono.clock_period C) (chrono.period T) in
  let elapsed := (end_ t - start_ t)%Z in
  chrono.fits (chrono.common_bits bits) (elapsed * chrono.num cf) →
  chrono.fits bits (elapsed * chrono.num cf ÷ chrono.den cf) →
  (0 ≤ slept)%Z →
  (slept * chrono.den cf ≤ elapsed * chrono.num cf)%Z →
  ∃ n, get_duration C T this w = Some (chrono.int_count n, w)
       ∧ (slept ≤ n)%Z.
Proof.
  intros Hrep [Hnum Hden] Ht cf elapsed Hp Hq Hs Hd. fold cf in Hnum, Hden.
  rewrite (get_duration_spec _ _ _ _ _ Ht). fold elapsed.
  rewrite (duration_cast_integral _ _ bits) by assumption. fold cf.
  eexists. split; [reflexivity|].
  assert (0 ≤ elapsed * chrono.num cf)%Z by nia.
  rewrite Z.quot_div_nonneg by lia.
  apply Z.div_le_lower_bound; lia.
Qed.

Lemma elapsed_at_least_witness :
  let w := {| clock_reading := 1232500077;
              timers := {[ 0 := {| start_ := 77; end_ := 1232500077 |} ]};
              ostream := [] |} in
  let t := {| start_ := 77; end_ := 1232500077 |} in
  let cf := chrono.ratio_divide (chrono.clock_period chrono.steady_clock)
              (chrono.period chrono.milliseconds) in
  chrono.rep_of chrono.milliseconds = chrono.integral 64
  ∧ chrono.castable (chrono.clock_period chrono.steady_clock) chrono.milliseconds
  ∧ timers w !! 0 = Some t
  ∧ chrono.fits (chrono.common_bits 64) ((end_ t - start_ t) * chrono.num cf)
  ∧ chrono.fits 64 ((end_ t - start_ t) * chrono.num cf ÷ chrono.den cf)
  ∧ (0 ≤ 1232)%Z
  ∧ (1232 * chrono.den cf ≤ (end_ t - start_ t) * chrono.num cf)%Z
  ∧ ∃ n, get_duration chrono.steady_clock chrono.milliseconds 0 w
         = Some (chrono.int_count n, w) ∧ (1232 ≤ n)%Z.
Proof.
  intros w t cf.
  assert (chrono.castable (chrono.clock_period chrono.steady_clock)
            chrono.milliseconds) as Hcf by (vm_compute; done).
  assert (timers w !! 0 = Some t) as Ht by reflexivity.
  assert (chrono.fits (chrono.common_bits 64)
            ((end_ t - start_ t) * chrono.num cf)) as Hp by evaluated.
  assert (chrono.fits 64 ((end_ t - start_ t) * chrono.num cf ÷ chrono.den cf))
    as Hq by evaluated.
  assert (0 ≤ 1232)%Z as Hs by lia.
  assert (1232 * chrono.den cf ≤ (end_ t - start_ t) * chrono.num cf)%Z as Hd
    by (vm_compute; discriminate).
  split; [reflexivity|]. split; [exact Hcf|]. split; [exact Ht|].
  split; [exact Hp|]. split; [exact Hq|]. split; [exact Hs|].
  split; [exact Hd|].
  exact (elapsed_at_least chrono.steady_clock chrono.milliseconds 64 0 w t 1232
           eq_refl Hcf Ht Hp Hq Hs Hd).
Defined.
